(** * NFT marketplace API: the aggregation service [NFTService]

    A shallow embedding of [src/api/services/nft.ts].  The service is
    asynchronous orchestration over three collaborators: the blockchain
    indexer (queried with [request]), the document store (the mongoose
    models [NftModel], [NftViewModel], [UserModel], [FollowModel]) and the
    category service.  Every method is written in a small monad that
    threads the store, reads an immutable environment, and carries the
    JavaScript exception (an [Error] with its message). *)

From Stdlib Require Import String List ZArith Bool Arith Lia Permutation.
Import ListNotations.
Local Open Scope string_scope.
Local Open Scope list_scope.

(* ===================================================================== *)
(** ** Data model *)
(* ===================================================================== *)

(** A mongoose [ObjectId]. *)
Definition ObjectId := string.

(** Modelled from the spec: the models and interfaces the service imports
    ([models/*], [interfaces/*]) are not among the sources.  Each record
    below has the fields the service reads or writes, with the meaning spec
    3 gives them. *)

(** Modelled from the spec: the category model.  Spec 3: identifier and
    human-readable code. *)
Module Category.
Record t := mk { _id : ObjectId; code : string }.
End Category.

(** Modelled from the spec: the user model.  Spec 3: wallet identifier and
    the local identifier that follow edges refer to. *)
Module User.
Record t := mk { _id : ObjectId; walletId : string }.
End User.

(** Modelled from the spec: the follow model.  Spec 3: a (follower,
    followed) pair of user ids. *)
Module Follow.
Record t := mk { follower : ObjectId; followed : ObjectId }.
End Follow.

(** Modelled from the spec: [INFT] of [interfaces/graphQL].  Spec 3 and 6:
    id, serie id ("0" means no serie), owner, creator, listed flag;
    [categories] is attached by the enrichment, [viewsCount] by [getNFT]
    ([None] is an absent property). *)
Module INFT.
Record t := mk {
  id : string;
  serieId : string;
  owner : string;
  creator : string;
  listed : Z;
  categories : list Category.t;
  viewsCount : option nat }.

Definition with_categories (cs : list Category.t) (n : t) : t :=
  mk (id n) (serieId n) (owner n) (creator n) (listed n) cs (viewsCount n).

(** [{ ...NFT, viewsCount }] *)
Definition with_viewsCount (v : nat) (n : t) : t :=
  mk (id n) (serieId n) (owner n) (creator n) (listed n) (categories n) (Some v).
End INFT.

(** Modelled from the spec: [IMongoNft], a document of [NftModel]: the
    chain id and the category linkage, as [createNFT] writes them.  The
    [categories] path holds references; an entry is [None] when it is
    [null], and the whole path is [None] when it is missing or [null]. *)
Module IMongoNft.
Record t := mk {
  chainId : string;
  categories : option (list (option ObjectId)) }.
End IMongoNft.

(** What [findOne(...).populate("categories")] yields: the references
    replaced by the category documents.  An entry may still be [null]
    ([None]): [populate] leaves a list that holds no id as it is. *)
Module PopulatedNft.
Record t := mk {
  chainId : string;
  categories : list (option Category.t) }.
End PopulatedNft.

(** Modelled from the spec: [INftDto], the argument of [createNFT]: the
    chain id and the category codes. *)
Module INftDto.
Record t := mk { chainId : string; categories : list string }.
End INftDto.

(** Modelled from the spec: a document of [NftViewModel], with the fields
    [getNFT] writes.  Spec 3: NFT or serie identifier, viewer identity
    (optional), viewer network address, timestamp. *)
Module NftView.
Record t := mk {
  viewedSerie : string;
  viewedId : string;
  viewer : option string;
  viewerIp : option string;
  date : Z }.
End NftView.

(** *** The indexer protocol *)

Module QueriesBuilder.
(** Modelled from the spec: [QueriesBuilder] (api/services/gqlQueriesBuilder)
    is not among the sources.  A query document is named after the builder
    method that makes it, applied to the arguments the service passes, in the
    order the service passes them.  Spec 4.1 lists them: by-id, by-owner,
    by-creator, by-id-list (inclusive and exclusive), by-serie and the
    count-only variants. *)
Inductive Query :=
| allNFTs (limit page listed : option string)
| NFTfromId (id : string)
| NFTsFromOwnerId (ownerId : string) (limit page listed : option string)
| NFTsFromCreatorId (creatorId : string) (limit page listed : option string)
| countOwnerOwned (walletId : string)
| countOwnerOwnedListed (walletId : string)
| countOwnerOwnedUnlisted (walletId : string)
| countCreated (walletId : string)
| NFTsFromIds (ids : list string) (limit page listed : option string)
| NFTsNotInIds (ids : list string) (limit page listed : option string)
| NFTsForSerie (serieId : string) (limit page : option string).
End QueriesBuilder.

(** One top-level field of a response: its [nodes] and its [totalCount]. *)
Record NodeList := { nodes : list INFT.t; totalCount : Z }.

(** Modelled from the spec: the response envelopes of [interfaces/graphQL].
    The service reads [result.nftEntities] or [result.distinctSerieNfts]; a
    field the response does not carry is [undefined] in JavaScript, [None]
    here. *)
Record Envelope := {
  nftEntities : option NodeList;
  distinctSerieNfts : option NodeList }.

(** *** The document-store protocol *)

(** The values that occur in the two [categories] conditions the service
    sends: [null], an [ObjectId], and the empty array [[]]. *)
Inductive Bson := BNull | BOid (o : ObjectId) | BEmptyArray.

(** The filters given to [NftModel.find]. *)
Inductive NftQuery :=
| categories_exists_nin (vals : list Bson)  (* {categories:{$exists:true,$nin:vals}} *)
| categories_in (vals : list Bson).         (* {categories:{$in:vals}} *)

(** The filters given to [NftViewModel.find]. *)
Inductive ViewQuery :=
| by_viewedSerie (serieId : string)         (* {viewedSerie: serieId} *)
| by_viewedId (id : string).                (* {viewedId: id} *)

(** The filters given to [FollowModel.find]. *)
Inductive FollowQuery :=
| by_followed (u : ObjectId)                (* {followed: u} *)
| by_follower (u : ObjectId).               (* {follower: u} *)

(** Every call that leaves the process.  The store keeps the list of the
    calls made so far, in order. *)
Inductive ExtCall :=
| call_request (q : QueriesBuilder.Query)
| call_User_findOne (walletId : string)
| call_Follow_find (q : FollowQuery)
| call_Nft_find (q : NftQuery)
| call_Nft_findOne (chainId : string)
| call_Nft_save (doc : IMongoNft.t)
| call_NftView_find (q : ViewQuery)
| call_NftView_save (doc : NftView.t)
| call_Category_findOne (code : string).

(** The collections of the document store, and the log of external calls. *)
Record Store := {
  users : list User.t;
  follows : list Follow.t;
  categoryDocs : list Category.t;
  nfts : list IMongoNft.t;
  nftViews : list NftView.t;
  trace : list ExtCall }.

(** What a call cannot change: the constant [TIME_BETWEEN_SAME_USER_VIEWS]
    of [utils] (not among the sources, hence a parameter), the indexer's
    answers, the schedule of failures of the collaborators (the external
    call made when [n] calls have been logged rejects with message [m] when
    [fault n = Some m]) and the clock. *)
Record Env := {
  TIME_BETWEEN_SAME_USER_VIEWS : Z;
  indexer : QueriesBuilder.Query -> Envelope;
  fault : nat -> option string;
  now : Z }.

(* ===================================================================== *)
(** ** The monad of service calls *)
(* ===================================================================== *)

(** A promise settles with a value or rejects with an [Error]; only the
    message of the error is observable. *)
Inductive result (A : Type) :=
| Ok (a : A)
| Throw (msg : string).
Arguments Ok {A} a.
Arguments Throw {A} msg.

Definition M (A : Type) : Type := Env -> Store -> result A * Store.

Definition ret {A} (a : A) : M A := fun _ s => (Ok a, s).

Definition throw {A} (msg : string) : M A := fun _ s => (Throw msg, s).

Definition bind {A B} (m : M A) (k : A -> M B) : M B :=
  fun e s =>
    match m e s with
    | (Ok a, s1) => k a e s1
    | (Throw msg, s1) => (Throw msg, s1)
    end.

(** [try { m } catch (err) { h err }] *)
Definition try_catch {A} (m : M A) (h : string -> M A) : M A :=
  fun e s =>
    match m e s with
    | (Ok a, s1) => (Ok a, s1)
    | (Throw msg, s1) => h msg e s1
    end.

Declare Scope service_scope.
Delimit Scope service_scope with service.
Notation "x <- m ;; k" := (bind m (fun x => k))
  (at level 100, m at next level, right associativity) : service_scope.
Notation "m ;;; k" := (bind m (fun _ => k))
  (at level 100, right associativity) : service_scope.
Local Open Scope service_scope.

(** Two promises already started: both run, whatever the other does, and
    the pair rejects when one of them does (with the error of the first in
    the list; every caller discards it). *)
Definition both {A B} (ma : M A) (mb : M B) : M (A * B) :=
  fun e s =>
    let (ra, s1) := ma e s in
    let (rb, s2) := mb e s1 in
    (match ra, rb with
     | Ok a, Ok b => Ok (a, b)
     | Throw msg, _ => Throw msg
     | Ok _, Throw msg => Throw msg
     end, s2).

(** [Promise.all(ps)]: every promise of the list has been started by the
    time [Promise.all] is called, so each runs to its end; the result is
    the list of the values, or a rejection when some promise rejects. *)
Fixpoint Promise_all {A} (ps : list (M A)) : M (list A) :=
  match ps with
  | [] => ret []
  | p :: ps' =>
      fun e s =>
        match both p (Promise_all ps') e s with
        | (Ok (a, l), s1) => (Ok (a :: l), s1)
        | (Throw msg, s1) => (Throw msg, s1)
        end
  end.

(** Reading a property of an object that may be [undefined]: a
    [TypeError] when it is. *)
Definition property {A} (o : option A) : M A :=
  match o with
  | Some a => ret a
  | None => throw "TypeError: Cannot read property of undefined"
  end.

Definition log (c : ExtCall) (s : Store) : Store :=
  {| users := users s; follows := follows s; categoryDocs := categoryDocs s;
     nfts := nfts s; nftViews := nftViews s; trace := trace s ++ [c] |}.

(** An external call [c]: it is logged, then it rejects if the schedule
    says so, and otherwise answers [k] on the store. *)
Definition external {A} (c : ExtCall) (k : Env -> Store -> A * Store) : M A :=
  fun e s =>
    let n := length (trace s) in
    let s1 := log c s in
    match fault e n with
    | Some msg => (Throw msg, s1)
    | None => let (a, s2) := k e s1 in (Ok a, s2)
    end.

Definition reading {A} (f : Env -> Store -> A) : Env -> Store -> A * Store :=
  fun e s => (f e s, s).

(* ===================================================================== *)
(** ** The collaborators *)
(* ===================================================================== *)

(** [request(indexerUrl, query)] *)
Definition request (q : QueriesBuilder.Query) : M Envelope :=
  external (call_request q) (reading (fun e _ => indexer e q)).

(** Reading the environment. *)
Definition read {A} (f : Env -> A) : M A := fun e s => (Ok (f e), s).

(** [+new Date()] *)
Definition Date_now : M Z := read now.

(** *** [UserModel] and [FollowModel] *)

(** [UserModel.findOne({walletId})]: the first document with that wallet
    id, [null] when there is none. *)
Definition User_findOne (walletId : string) : M (option User.t) :=
  external (call_User_findOne walletId)
    (reading (fun _ s => find (fun u => User.walletId u =? walletId) (users s))).

Definition follow_matches (q : FollowQuery) (f : Follow.t) : bool :=
  match q with
  | by_followed u => Follow.followed f =? u
  | by_follower u => Follow.follower f =? u
  end.

(** [FollowModel.find(q)] *)
Definition Follow_find (q : FollowQuery) : M (list Follow.t) :=
  external (call_Follow_find q)
    (reading (fun _ s => filter (follow_matches q) (follows s))).

(** *** [NftViewModel] *)

Definition view_matches (q : ViewQuery) (v : NftView.t) : bool :=
  match q with
  | by_viewedSerie serieId => NftView.viewedSerie v =? serieId
  | by_viewedId id => NftView.viewedId v =? id
  end.

(** [NftViewModel.find(q)] *)
Definition NftView_find (q : ViewQuery) : M (list NftView.t) :=
  external (call_NftView_find q)
    (reading (fun _ s => filter (view_matches q) (nftViews s))).

Definition add_view (v : NftView.t) (s : Store) : Store :=
  {| users := users s; follows := follows s; categoryDocs := categoryDocs s;
     nfts := nfts s; nftViews := nftViews s ++ [v]; trace := trace s |}.

(** [new NftViewModel(doc).save()] *)
Definition NftView_save (doc : NftView.t) : M unit :=
  external (call_NftView_save doc) (fun _ s => (tt, add_view doc s)).

(** *** [NftModel] *)

Definition bson_eqb (a b : Bson) : bool :=
  match a, b with
  | BNull, BNull => true
  | BOid x, BOid y => x =? y
  | BEmptyArray, BEmptyArray => true
  | _, _ => false
  end.

(** An entry of a [categories] array as a value. *)
Definition bson_of_ref (r : option ObjectId) : Bson :=
  match r with
  | Some o => BOid o
  | None => BNull
  end.

(** MongoDB's [$in] on the [categories] path: the document is selected
    when the value of the path is one of [vals], or when the path holds an
    array one of whose elements is one of [vals].  A missing path compares
    as [null].  An array never equals an [ObjectId] or [null], and it equals
    [[]] only when it is empty. *)
Definition categories_in_vals (vals : list Bson) (doc : IMongoNft.t) : bool :=
  match IMongoNft.categories doc with
  | None => existsb (bson_eqb BNull) vals
  | Some [] => existsb (bson_eqb BEmptyArray) vals
  | Some l => existsb (fun r => existsb (bson_eqb (bson_of_ref r)) vals) l
  end.

(** [$exists:true] selects the documents that hold the path; [$nin] those
    that [$in] does not select. *)
Definition nft_matches (q : NftQuery) (doc : IMongoNft.t) : bool :=
  match q with
  | categories_exists_nin vals =>
      match IMongoNft.categories doc with
      | None => false
      | Some _ => negb (categories_in_vals vals doc)
      end
  | categories_in vals => categories_in_vals vals doc
  end.

(** [NftModel.find(q)] *)
Definition Nft_find (q : NftQuery) : M (list IMongoNft.t) :=
  external (call_Nft_find q)
    (reading (fun _ s => filter (nft_matches q) (nfts s))).

(** The category document a reference points to. *)
Definition category_of_ref (cats : list Category.t) (r : option ObjectId)
  : option Category.t :=
  match r with
  | Some o => find (fun c => Category._id c =? o) cats
  | None => None
  end.

Fixpoint resolve_refs (cats : list Category.t) (l : list (option ObjectId))
  : list Category.t :=
  match l with
  | [] => []
  | r :: l' =>
      match category_of_ref cats r with
      | Some c => c :: resolve_refs cats l'
      | None => resolve_refs cats l'
      end
  end.

Definition is_null {A} (o : option A) : bool :=
  match o with
  | None => true
  | Some _ => false
  end.

(** [.populate("categories")] of mongoose 5.  When the list holds no id --
    it is empty, or all its entries are [null] -- there is nothing to fetch
    and the path is left as it is, [null] entries included.  Otherwise each
    id is replaced by its document, in the order of the list, and the
    entries with no document, [null] entries among them, are dropped.  A
    missing path reads as the empty list. *)
Definition populate_categories (cats : list Category.t) (doc : IMongoNft.t)
  : PopulatedNft.t :=
  PopulatedNft.mk (IMongoNft.chainId doc)
    (match IMongoNft.categories doc with
     | Some l =>
         if forallb is_null l then map (fun _ => None) l
         else map Some (resolve_refs cats l)
     | None => []
     end).

(** The categories among the entries of a populated list: a [null] entry
    is no category. *)
Fixpoint category_set (l : list (option Category.t)) : list Category.t :=
  match l with
  | [] => []
  | Some c :: l' => c :: category_set l'
  | None :: l' => category_set l'
  end.

(** [NftModel.findOne({chainId}).populate("categories")] *)
Definition Nft_findOne_populate (chainId : string) : M (option PopulatedNft.t) :=
  external (call_Nft_findOne chainId)
    (reading (fun _ s =>
       option_map (populate_categories (categoryDocs s))
         (find (fun d => IMongoNft.chainId d =? chainId) (nfts s)))).

Definition add_nft (d : IMongoNft.t) (s : Store) : Store :=
  {| users := users s; follows := follows s; categoryDocs := categoryDocs s;
     nfts := nfts s ++ [d]; nftViews := nftViews s; trace := trace s |}.

(** [new NftModel(data).save()]: the document is stored and returned. *)
Definition Nft_save (doc : IMongoNft.t) : M IMongoNft.t :=
  external (call_Nft_save doc) (fun _ s => (doc, add_nft doc s)).

(** *** [CategoryService] *)

(** Modelled from the spec: [CategoryService.getCategoryByCode]
    (api/services/category) is not among the sources.  The spec has a code
    resolve to its category, an unresolvable code to an absent ([null])
    result, not a rejection; the lookup is one call to the store. *)
Definition getCategoryByCode (code : string) : M (option Category.t) :=
  external (call_Category_findOne code)
    (reading (fun _ s => find (fun c => Category.code c =? code) (categoryDocs s))).

(** *** The enrichment merge *)

(** Modelled from the spec: [populateNFT] (api/helpers/nftHelpers) is not
    among the sources.  Spec 4.3: for a raw indexer record, look up its
    local enrichment record by chain id; if found, attach its categories;
    if not found, attach an empty category set.  The categories of an NFT
    record are a set of category references (spec 3): the categories
    attached are those among the entries of the local record. *)
Definition populateNFT (NFT : INFT.t) : M INFT.t :=
  mongo <- Nft_findOne_populate (INFT.id NFT) ;;
  match mongo with
  | Some d => ret (INFT.with_categories (category_set (PopulatedNft.categories d)) NFT)
  | None => ret (INFT.with_categories [] NFT)
  end.

(* ===================================================================== *)
(** ** JavaScript arithmetic used by the view cooldown *)
(* ===================================================================== *)

(** The numbers the cooldown test computes with: timestamps are integers;
    [Math.max] of no argument is [-Infinity]. *)
Inductive JSNumber := NegInfinity | Num (z : Z) | PosInfinity.

Definition js_max (a b : JSNumber) : JSNumber :=
  match a, b with
  | PosInfinity, _ | _, PosInfinity => PosInfinity
  | NegInfinity, x | x, NegInfinity => x
  | Num x, Num y => Num (Z.max x y)
  end.

(** [Math.max.apply(null, l)] *)
Definition Math_max (l : list Z) : JSNumber :=
  fold_right (fun z acc => js_max (Num z) acc) NegInfinity l.

(** [a - b] for a finite [a] *)
Definition js_sub (a : Z) (b : JSNumber) : JSNumber :=
  match b with
  | NegInfinity => PosInfinity
  | Num z => Num (a - z)
  | PosInfinity => NegInfinity
  end.

(** [a > b] for a finite [b] *)
Definition js_gt (a : JSNumber) (b : Z) : bool :=
  match a with
  | NegInfinity => false
  | Num z => (b <? z)%Z
  | PosInfinity => true
  end.

(** Truthiness of a [string] parameter that defaults to [null]: [null] and
    the empty string are falsy. *)
Definition truthy (o : option string) : bool :=
  match o with
  | Some s => negb (s =? "")
  | None => false
  end.

(** [a === b] on values that are a string, or [null]/[undefined]. *)
Definition strict_eqb (a b : option string) : bool :=
  match a, b with
  | Some x, Some y => x =? y
  | None, None => true
  | _, _ => false
  end.

(* ===================================================================== *)
(** ** [NFTService] *)
(* ===================================================================== *)

Definition with_nodes (l : list INFT.t) (nl : NodeList) : NodeList :=
  {| nodes := l; totalCount := totalCount nl |}.

(** [result.distinctSerieNfts.nodes = l] *)
Definition set_distinct_nodes (l : list INFT.t) (r : Envelope) (nl : NodeList)
  : Envelope :=
  {| nftEntities := nftEntities r; distinctSerieNfts := Some (with_nodes l nl) |}.

(** [result.nftEntities.nodes = l] *)
Definition set_entities_nodes (l : list INFT.t) (r : Envelope) (nl : NodeList)
  : Envelope :=
  {| nftEntities := Some (with_nodes l nl); distinctSerieNfts := distinctSerieNfts r |}.

(** The body shared by the list methods that read [distinctSerieNfts]:
    [const NFTs = result.distinctSerieNfts.nodes;
     result.distinctSerieNfts.nodes =
       await Promise.all(NFTs.map(async (NFT) => populateNFT(NFT)));
     return result]. *)
Definition populate_distinct (r : Envelope) : M Envelope :=
  nl <- property (distinctSerieNfts r) ;;
  NFTs <- Promise_all (map populateNFT (nodes nl)) ;;
  ret (set_distinct_nodes NFTs r nl).

(** The same on [nftEntities]. *)
Definition populate_entities (r : Envelope) : M Envelope :=
  nl <- property (nftEntities r) ;;
  NFTs <- Promise_all (map populateNFT (nodes nl)) ;;
  ret (set_entities_nodes NFTs r nl).

Definition getAllNFTs (page limit listed : option string) : M Envelope :=
  try_catch
    (let query := QueriesBuilder.allNFTs limit page listed in
     r <- request query ;;
     populate_distinct r)
    (fun _ => throw "Couldn't get NFTs").

Definition getNFT (id : string) (incViews : bool)
    (viewerWalletId viewerIp : option string) : M INFT.t :=
  try_catch
    (let query := QueriesBuilder.NFTfromId id in
     r <- request query ;;
     nl <- property (nftEntities r) ;;
     match nodes nl with
     | [] => throw ""
     | NFT :: _ =>
         NFT <- populateNFT NFT ;;
         if incViews then
           date <- Date_now ;;
           views <- NftView_find
                      (if negb (INFT.serieId NFT =? "0")
                       then by_viewedSerie (INFT.serieId NFT)
                       else by_viewedId id) ;;
           T <- read TIME_BETWEEN_SAME_USER_VIEWS ;;
           if truthy viewerIp &&
              ((length views =? 0)%nat ||
               js_gt (js_sub date
                        (Math_max
                           (map NftView.date
                              (filter (fun x => strict_eqb (NftView.viewerIp x) viewerIp)
                                 views))))
                     T)
           then
             let newView :=
               NftView.mk (INFT.serieId NFT) id viewerWalletId viewerIp date in
             NftView_save newView ;;;
             ret (INFT.with_viewsCount (length views + 1) NFT)
           else
             ret (INFT.with_viewsCount (length views) NFT)
         else
           ret (INFT.with_viewsCount 0 NFT)
     end)
    (fun _ => throw "Couldn't get NFT").

Definition getNFTsFromOwner (ownerId : string) (page limit listed : option string)
  : M Envelope :=
  try_catch
    (let query := QueriesBuilder.NFTsFromOwnerId ownerId limit page listed in
     r <- request query ;;
     populate_distinct r)
    (fun _ => throw "Couldn't get user's owned NFTs").

Definition getNFTsFromCreator (creatorId : string) (page limit listed : option string)
  : M Envelope :=
  try_catch
    (let query := QueriesBuilder.NFTsFromCreatorId creatorId limit page listed in
     r <- request query ;;
     populate_distinct r)
    (fun _ => throw "Couldn't get creator's NFTs").

Record UserStats := {
  countOwned : Z;
  countOwnedListed : Z;
  countOwnedUnlisted : Z;
  countCreated : Z;
  countFollowers : nat;
  countFollowed : nat }.

Definition getStatNFTsUser (userWalletId : string) : M UserStats :=
  try_catch
    (user <- User_findOne userWalletId ;;
     match user with
     | None => throw "User not found in db"
     | Some user =>
         all <- both (request (QueriesBuilder.countOwnerOwned userWalletId))
                (both (request (QueriesBuilder.countOwnerOwnedListed userWalletId))
                (both (request (QueriesBuilder.countOwnerOwnedUnlisted userWalletId))
                (both (request (QueriesBuilder.countCreated userWalletId))
                (both (Follow_find (by_followed (User._id user)))
                      (Follow_find (by_follower (User._id user))))))) ;;
         let '(owned, (ownedListed, (ownedUnlisted, (created, (followers, followed))))) := all in
         owned_ <- property (nftEntities owned) ;;
         ownedListed_ <- property (nftEntities ownedListed) ;;
         ownedUnlisted_ <- property (nftEntities ownedUnlisted) ;;
         created_ <- property (nftEntities created) ;;
         ret {| countOwned := totalCount owned_;
                countOwnedListed := totalCount ownedListed_;
                countOwnedUnlisted := totalCount ownedUnlisted_;
                countCreated := totalCount created_;
                countFollowers := length followers;
                countFollowed := length followed |}
     end)
    (fun _ => throw "Couldn't get users stat").

Definition getNFTsFromIds (ids : list string) (page limit listed : option string)
  : M Envelope :=
  try_catch
    (let query := QueriesBuilder.NFTsFromIds ids limit page listed in
     r <- request query ;;
     populate_entities r)
    (fun _ => throw "Couldn't get NFTs from ids").

Definition getNFTsFromIdsDistinct (ids : list string) (page limit listed : option string)
  : M Envelope :=
  try_catch
    (let query := QueriesBuilder.NFTsFromIds ids limit page listed in
     r <- request query ;;
     populate_distinct r)
    (fun _ => throw "Couldn't get NFTs from ids").

Definition getNFTsNotInIds (ids : list string) (page limit listed : option string)
  : M Envelope :=
  try_catch
    (let query := QueriesBuilder.NFTsNotInIds ids limit page listed in
     r <- request query ;;
     populate_distinct r)
    (fun _ => throw "Couldn't get NFTs not in ids").

(** What one code contributes to the [$in] list of [getNFTsFromCategories]:
    [async (x) => { const category = await CategoryService.getCategoryByCode(x);
                    if (category) { return mongoose.Types.ObjectId(category._id) } }]
    -- [undefined] ([None]) when the code has no category. *)
Definition category_id_of_code (x : string) : M (option ObjectId) :=
  category <- getCategoryByCode x ;;
  match category with
  | Some c => ret (Some (Category._id c))
  | None => ret None
  end.

(** [codes] is [null] ([None]) or a list of codes. *)
Definition getNFTsFromCategories (codes : option (list string))
    (page limit listed : option string) : M Envelope :=
  try_catch
    (match codes with
     | None =>
         let query := categories_exists_nin [BEmptyArray; BNull] in
         mongoNfts <- Nft_find query ;;
         r <- getNFTsNotInIds (map IMongoNft.chainId mongoNfts) page limit listed ;;
         populate_distinct r
     | Some codes =>
         categories <- Promise_all (map category_id_of_code codes) ;;
         let query := categories_in (map bson_of_ref categories) in
         mongoNfts <- Nft_find query ;;
         r <- getNFTsFromIdsDistinct (map IMongoNft.chainId mongoNfts) page limit listed ;;
         populate_distinct r
     end)
    (fun _ => throw "Couldn't get NFTs by categories").

Definition createNFT (nftDTO : INftDto.t) : M IMongoNft.t :=
  try_catch
    (categories <- Promise_all (map getCategoryByCode (INftDto.categories nftDTO)) ;;
     let data :=
       IMongoNft.mk (INftDto.chainId nftDTO)
         (Some (map (option_map Category._id) categories)) in
     Nft_save data)
    (fun _ => throw "NFT can't be created").

Definition findMongoNftFromId (nftId : string) : M (option PopulatedNft.t) :=
  try_catch
    (nft <- Nft_findOne_populate nftId ;;
     match nft with
     | None => ret None
     | Some d => ret (Some d)
     end)
    (fun _ => throw "Couldn't get mongo NFT").

Definition getNFTsForSerie (NFT : INFT.t) (page limit : option string) : M Envelope :=
  try_catch
    (let query := QueriesBuilder.NFTsForSerie (INFT.serieId NFT) limit page in
     r <- request query ;;
     ret r)
    (fun _ => throw "Couldn't get NFTs for this serie").

(* ===================================================================== *)
(** ** A reference indexer and sample worlds *)
(* ===================================================================== *)

(** One record per serie id other than "0", the first met; the records of
    serie "0" are all kept. *)
Fixpoint distinct_series (seen : list string) (l : list INFT.t) : list INFT.t :=
  match l with
  | [] => []
  | n :: l' =>
      if INFT.serieId n =? "0" then n :: distinct_series seen l'
      else if existsb (String.eqb (INFT.serieId n)) seen then distinct_series seen l'
      else n :: distinct_series (INFT.serieId n :: seen) l'
  end.

Definition listed_filter (listed : option string) (n : INFT.t) : bool :=
  match listed with
  | Some "1" => (INFT.listed n =? 1)%Z
  | Some "0" => (INFT.listed n =? 0)%Z
  | _ => true
  end.

Definition selection (l : list INFT.t) : Envelope :=
  {| nftEntities := Some {| nodes := l; totalCount := Z.of_nat (length l) |};
     distinctSerieNfts :=
       Some {| nodes := distinct_series [] l;
               totalCount := Z.of_nat (length (distinct_series [] l)) |} |}.

Definition count_only (l : list INFT.t) : Envelope :=
  {| nftEntities := Some {| nodes := []; totalCount := Z.of_nat (length l) |};
     distinctSerieNfts := None |}.

(** Modelled from the spec: the indexer is a remote service.  This one
    answers from a list of chain records; it honours the id, owner, creator
    and serie filters and the listed filter, serves everything on one page,
    and carries both views of the selection: [nftEntities] (every record)
    and [distinctSerieNfts] (one record per serie, see [distinct_series]).
    It serves the examples; the theorems hold for every indexer. *)
Definition chain_indexer (chain : list INFT.t) (q : QueriesBuilder.Query) : Envelope :=
  let mem ids n := existsb (String.eqb (INFT.id n)) ids in
  match q with
  | QueriesBuilder.allNFTs _ _ listed => selection (filter (listed_filter listed) chain)
  | QueriesBuilder.NFTfromId id => selection (filter (fun n => INFT.id n =? id) chain)
  | QueriesBuilder.NFTsFromOwnerId o _ _ listed =>
      selection (filter (fun n => (INFT.owner n =? o) && listed_filter listed n) chain)
  | QueriesBuilder.NFTsFromCreatorId c _ _ listed =>
      selection (filter (fun n => (INFT.creator n =? c) && listed_filter listed n) chain)
  | QueriesBuilder.countOwnerOwned w => count_only (filter (fun n => INFT.owner n =? w) chain)
  | QueriesBuilder.countOwnerOwnedListed w =>
      count_only (filter (fun n => (INFT.owner n =? w) && (INFT.listed n =? 1)%Z) chain)
  | QueriesBuilder.countOwnerOwnedUnlisted w =>
      count_only (filter (fun n => (INFT.owner n =? w) && (INFT.listed n =? 0)%Z) chain)
  | QueriesBuilder.countCreated w => count_only (filter (fun n => INFT.creator n =? w) chain)
  | QueriesBuilder.NFTsFromIds ids _ _ listed =>
      selection (filter (fun n => mem ids n && listed_filter listed n) chain)
  | QueriesBuilder.NFTsNotInIds ids _ _ listed =>
      selection (filter (fun n => negb (mem ids n) && listed_filter listed n) chain)
  | QueriesBuilder.NFTsForSerie serie _ _ =>
      selection (filter (fun n => INFT.serieId n =? serie) chain)
  end.

(** A raw chain record: no categories, no view count. *)
Definition raw (id serieId owner creator : string) (listed : Z) : INFT.t :=
  INFT.mk id serieId owner creator listed [] None.

Definition sample_chain : list INFT.t :=
  [ raw "42" "0" "alice" "bob" 1;
    raw "7" "s1" "alice" "alice" 0;
    raw "8" "s1" "carol" "alice" 1 ].

Definition art : Category.t := Category.mk "c-art" "art".
Definition music : Category.t := Category.mk "c-music" "music".

(** An environment with no failing collaborator, a one-minute cooldown,
    and the clock at [t]. *)
Definition sample_env (t : Z) : Env :=
  {| TIME_BETWEEN_SAME_USER_VIEWS := 60000;
     indexer := chain_indexer sample_chain;
     fault := fun _ => None;
     now := t |}.

Definition sample_store : Store :=
  {| users := [User.mk "u-alice" "alice"; User.mk "u-bob" "bob"];
     follows := [Follow.mk "u-bob" "u-alice"];
     categoryDocs := [art; music];
     nfts := [IMongoNft.mk "42" (Some [Some "c-art"])];
     nftViews := [];
     trace := [] |}.

(* ===================================================================== *)
(** ** Vocabulary of the statements *)
(* ===================================================================== *)

(** No collaborator ever fails. *)
Definition reliable (e : Env) : Prop := forall n, fault e n = None.

(** The enrichment merge as a function of the store: what [populateNFT]
    answers when the store does. *)
Definition mergeNFT (s : Store) (NFT : INFT.t) : INFT.t :=
  match find (fun d => IMongoNft.chainId d =? INFT.id NFT) (nfts s) with
  | Some d =>
      INFT.with_categories
        (category_set (PopulatedNft.categories (populate_categories (categoryDocs s) d)))
        NFT
  | None => INFT.with_categories [] NFT
  end.

Definition add_calls (cs : list ExtCall) (s : Store) : Store :=
  {| users := users s; follows := follows s; categoryDocs := categoryDocs s;
     nfts := nfts s; nftViews := nftViews s; trace := trace s ++ cs |}.


(** The filters of the reads of view events in a log, and the documents of
    the writes. *)
Definition view_finds (t : list ExtCall) : list ViewQuery :=
  flat_map (fun c => match c with call_NftView_find q => [q] | _ => [] end) t.

Definition view_saves (t : list ExtCall) : list NftView.t :=
  flat_map (fun c => match c with call_NftView_save d => [d] | _ => [] end) t.

(** The scope of a record's view events: its serie when it has one, the
    requested id when its serie id is "0". *)
Definition in_scope (NFT : INFT.t) (id : string) (v : NftView.t) : Prop :=
  (INFT.serieId NFT <> "0" /\ NftView.viewedSerie v = INFT.serieId NFT) \/
  (INFT.serieId NFT = "0" /\ NftView.viewedId v = id).

(** The test of [getNFT] that decides whether a view is recorded, on the
    view events [views] just read. *)
Definition cooldown_test (e : Env) (viewerIp : option string) (views : list NftView.t)
  : bool :=
  truthy viewerIp &&
  ((length views =? 0)%nat ||
   js_gt (js_sub (now e)
            (Math_max
               (map NftView.date
                  (filter (fun x => strict_eqb (NftView.viewerIp x) viewerIp) views))))
         (TIME_BETWEEN_SAME_USER_VIEWS e)).

(** A viewer address is present when it is a non-empty string. *)
Definition present (viewerIp : option string) : Prop :=
  exists ip, viewerIp = Some ip /\ ip <> "".

(** [v] is the most recent of the events of [views] that come from
    [viewerIp]. *)
Definition most_recent_from (viewerIp : option string) (views : list NftView.t)
    (v : NftView.t) : Prop :=
  In v views /\ NftView.viewerIp v = viewerIp /\
  forall u, In u views -> NftView.viewerIp u = viewerIp ->
            (NftView.date u <= NftView.date v)%Z.

(** The condition for recording a view, in the words of the claim: no prior
    event in the scope, or the most recent prior event of the same viewer
    address older than the cooldown. *)
Definition no_prior_or_latest_is_old (e : Env) (viewerIp : option string)
    (views : list NftView.t) : Prop :=
  views = [] \/
  exists v, most_recent_from viewerIp views v /\
            (TIME_BETWEEN_SAME_USER_VIEWS e < now e - NftView.date v)%Z.

(** The condition the code implements: no prior event of the same viewer
    address lies within the cooldown. *)
Definition none_within_cooldown (e : Env) (viewerIp : option string)
    (views : list NftView.t) : Prop :=
  forall v, In v views -> NftView.viewerIp v = viewerIp ->
            (TIME_BETWEEN_SAME_USER_VIEWS e < now e - NftView.date v)%Z.

(** The filter [getNFT] gives to [NftViewModel.find] for the record [NFT]
    requested under [id]. *)
Definition scope_query (NFT : INFT.t) (id : string) : ViewQuery :=
  if negb (INFT.serieId NFT =? "0")
  then by_viewedSerie (INFT.serieId NFT)
  else by_viewedId id.

(** The call that took the store from [s] to [s'] recorded one view event. *)
Definition records_a_view (s s' : Store) : Prop :=
  exists v, nftViews s' = nftViews s ++ [v].

(** A store where NFT "42" (no serie) was seen once, by another address,
    one second before the clock of [sample_env 1000000]. *)
Definition seen_by_another : Store :=
  {| users := users sample_store; follows := follows sample_store;
     categoryDocs := categoryDocs sample_store; nfts := nfts sample_store;
     nftViews := [NftView.mk "0" "42" None (Some "9.9.9.9") 999000];
     trace := [] |}.

(** *** Invariants of a call *)

(** [keeps R m]: whatever happens, [m] takes a store to a store related to
    it by [R]. *)
Definition keeps {A} (R : Store -> Store -> Prop) (m : M A) : Prop :=
  forall e s, R s (snd (m e s)).

(** [returns P m]: every value [m] returns satisfies [P]. *)
Definition returns {A} (P : A -> Prop) (m : M A) : Prop :=
  forall e s a, fst (m e s) = Ok a -> P a.

(** The view events are as they were, and no read or write of view events
    was added to the log. *)
Definition views_untouched (s s' : Store) : Prop :=
  nftViews s' = nftViews s /\
  view_finds (trace s') = view_finds (trace s) /\
  view_saves (trace s') = view_saves (trace s).

Definition is_view_call (c : ExtCall) : bool :=
  match c with
  | call_NftView_find _ | call_NftView_save _ => true
  | _ => false
  end.

(** The user record of a wallet: the first user document with that wallet
    id. *)
Definition user_of_wallet (s : Store) (walletId : string) : option User.t :=
  find (fun u => User.walletId u =? walletId) (users s).

(** The follow edges that end at [u] (its followers) and those that start
    at [u] (the users it follows). *)
Definition edges_to (u : ObjectId) (s : Store) : list Follow.t :=
  filter (fun f => Follow.followed f =? u) (follows s).

Definition edges_from (u : ObjectId) (s : Store) : list Follow.t :=
  filter (fun f => Follow.follower f =? u) (follows s).

(** The category a code resolves to: the first category document with
    that code; a code is unresolvable when there is none. *)
Definition category_of_code (s : Store) (code : string) : option Category.t :=
  find (fun c => Category.code c =? code) (categoryDocs s).

(** The local enrichment record of a chain id: the first document of
    [NftModel] with that [chainId]. *)
Definition local_record (s : Store) (chainId : string) : option IMongoNft.t :=
  find (fun d => IMongoNft.chainId d =? chainId) (nfts s).

(** The ids a stored category list holds, in its order. *)
Fixpoint ids_of (l : list (option ObjectId)) : list ObjectId :=
  match l with
  | [] => []
  | Some o :: l' => o :: ids_of l'
  | None :: l' => ids_of l'
  end.

(** Some category document has the id [o]. *)
Definition has_category (s : Store) (o : ObjectId) : bool :=
  existsb (fun c => Category._id c =? o) (categoryDocs s).

(** [r] is the local record [d] with its categories resolved: it has the
    chain id of [d]; when the list of [d] holds no id, the list of [r] is
    the stored list itself, its [null] entries included (the empty list if
    the path is missing); when it holds one, the list of [r] is made of
    category documents of the store, no [null] among them, and their ids are
    the ids of [d], in its order, that have a category document. *)
Definition categories_resolved (s : Store) (d : IMongoNft.t) (r : PopulatedNft.t)
  : Prop :=
  PopulatedNft.chainId r = IMongoNft.chainId d /\
  match IMongoNft.categories d with
  | None => PopulatedNft.categories r = []
  | Some l =>
      (ids_of l = [] ->
       map (option_map Category._id) (PopulatedNft.categories r) = l) /\
      (ids_of l <> [] ->
       exists cs,
         PopulatedNft.categories r = map Some cs /\
         Forall (fun c => In c (categoryDocs s)) cs /\
         map Category._id cs = filter (has_category s) (ids_of l))
  end.

(** The external call at position [length (trace s)] is the next one. *)
Definition next_call_fails (e : Env) (s : Store) : Prop :=
  fault e (length (trace s)) <> None.

(** *** The public operations and their errors *)

(** A call to a public method of the service, with its arguments. *)
Inductive Operation :=
| op_getAllNFTs (page limit listed : option string)
| op_getNFT (id : string) (incViews : bool) (viewerWalletId viewerIp : option string)
| op_getNFTsFromOwner (ownerId : string) (page limit listed : option string)
| op_getNFTsFromCreator (creatorId : string) (page limit listed : option string)
| op_getStatNFTsUser (userWalletId : string)
| op_getNFTsFromIds (ids : list string) (page limit listed : option string)
| op_getNFTsFromIdsDistinct (ids : list string) (page limit listed : option string)
| op_getNFTsNotInIds (ids : list string) (page limit listed : option string)
| op_getNFTsFromCategories (codes : option (list string)) (page limit listed : option string)
| op_createNFT (nftDTO : INftDto.t)
| op_findMongoNftFromId (nftId : string)
| op_getNFTsForSerie (NFT : INFT.t) (page limit : option string).

(** The message of the error a result carries, if it is one. *)
Definition thrown {A} (r : result A) : option string :=
  match r with
  | Ok _ => None
  | Throw msg => Some msg
  end.

(** The error, if any, of a call to the operation [o]. *)
Definition failure (o : Operation) (e : Env) (s : Store) : option string :=
  match o with
  | op_getAllNFTs p l li => thrown (fst (getAllNFTs p l li e s))
  | op_getNFT id inc w ip => thrown (fst (getNFT id inc w ip e s))
  | op_getNFTsFromOwner o p l li => thrown (fst (getNFTsFromOwner o p l li e s))
  | op_getNFTsFromCreator c p l li => thrown (fst (getNFTsFromCreator c p l li e s))
  | op_getStatNFTsUser w => thrown (fst (getStatNFTsUser w e s))
  | op_getNFTsFromIds ids p l li => thrown (fst (getNFTsFromIds ids p l li e s))
  | op_getNFTsFromIdsDistinct ids p l li => thrown (fst (getNFTsFromIdsDistinct ids p l li e s))
  | op_getNFTsNotInIds ids p l li => thrown (fst (getNFTsNotInIds ids p l li e s))
  | op_getNFTsFromCategories codes p l li => thrown (fst (getNFTsFromCategories codes p l li e s))
  | op_createNFT dto => thrown (fst (createNFT dto e s))
  | op_findMongoNftFromId id => thrown (fst (findMongoNftFromId id e s))
  | op_getNFTsForSerie NFT p l => thrown (fst (getNFTsForSerie NFT p l e s))
  end.

(** The messages of the errors the service lets out. *)
Definition coarse_messages : list string :=
  [ "Couldn't get NFTs"; "Couldn't get NFT"; "Couldn't get user's owned NFTs";
    "Couldn't get creator's NFTs"; "Couldn't get users stat";
    "Couldn't get NFTs from ids"; "Couldn't get NFTs not in ids";
    "Couldn't get NFTs by categories"; "NFT can't be created";
    "Couldn't get mongo NFT"; "Couldn't get NFTs for this serie" ].

(** The one message each operation fails with. *)
Definition coarse_message (o : Operation) : string :=
  match o with
  | op_getAllNFTs _ _ _ => "Couldn't get NFTs"
  | op_getNFT _ _ _ _ => "Couldn't get NFT"
  | op_getNFTsFromOwner _ _ _ _ => "Couldn't get user's owned NFTs"
  | op_getNFTsFromCreator _ _ _ _ => "Couldn't get creator's NFTs"
  | op_getStatNFTsUser _ => "Couldn't get users stat"
  | op_getNFTsFromIds _ _ _ _ => "Couldn't get NFTs from ids"
  | op_getNFTsFromIdsDistinct _ _ _ _ => "Couldn't get NFTs from ids"
  | op_getNFTsNotInIds _ _ _ _ => "Couldn't get NFTs not in ids"
  | op_getNFTsFromCategories _ _ _ _ => "Couldn't get NFTs by categories"
  | op_createNFT _ => "NFT can't be created"
  | op_findMongoNftFromId _ => "Couldn't get mongo NFT"
  | op_getNFTsForSerie _ _ _ => "Couldn't get NFTs for this serie"
  end.

(** The enrichment call of the [i]-th record of a batch of [n] that starts
    after the request made from [s] rejects. *)
Definition enrichment_rejects (e : Env) (s : Store) (n : nat) : Prop :=
  exists i, (i < n)%nat /\ fault e (length (trace s) + 1 + i) <> None.

(** *** Failing collaborators, for the examples *)

(** [sample_env t], except that the [k]-th external call rejects. *)
Definition failing_at (k : nat) (msg : string) (t : Z) : Env :=
  {| TIME_BETWEEN_SAME_USER_VIEWS := 60000;
     indexer := chain_indexer sample_chain;
     fault := fun n => if (n =? k)%nat then Some msg else None;
     now := t |}.

(** *** The enrichment of an envelope *)

(** The envelope [r], whose [distinctSerieNfts] is [nl], with each node
    merged once with the store. *)
Definition enriched_distinct (s : Store) (r : Envelope) (nl : NodeList) : Envelope :=
  set_distinct_nodes (map (mergeNFT s) (nodes nl)) r nl.

(** The calls of the enrichment of a batch. *)
Definition enrichment_calls (l : list INFT.t) : list ExtCall :=
  map (fun n => call_Nft_findOne (INFT.id n)) l.

(** The chain ids [getNFTsFromCategories] collects with the filter [q]. *)
Definition collected_ids (s : Store) (q : NftQuery) : list string :=
  map IMongoNft.chainId (filter (nft_matches q) (nfts s)).

(** The [$in] list [getNFTsFromCategories] builds from the codes: one slot
    per code, [null] for a code that does not resolve. *)
Definition in_list_of_codes (s : Store) (codes : list string) : list Bson :=
  map bson_of_ref
    (map (fun x => option_map Category._id (category_of_code s x)) codes).

(** *** Stores left by [createNFT] *)

(** The sample store after [createNFT] has stored the record of [nftDTO]. *)
Definition after_createNFT (nftDTO : INftDto.t) : Store :=
  snd (createNFT nftDTO (sample_env 0) sample_store).

(* ===================================================================== *)
(** ** Vocabulary of the further properties *)
(* ===================================================================== *)

(** The store a call to the operation [o] leaves. *)
Definition final_store (o : Operation) (e : Env) (s : Store) : Store :=
  match o with
  | op_getAllNFTs p l li => snd (getAllNFTs p l li e s)
  | op_getNFT id inc w ip => snd (getNFT id inc w ip e s)
  | op_getNFTsFromOwner o p l li => snd (getNFTsFromOwner o p l li e s)
  | op_getNFTsFromCreator c p l li => snd (getNFTsFromCreator c p l li e s)
  | op_getStatNFTsUser w => snd (getStatNFTsUser w e s)
  | op_getNFTsFromIds ids p l li => snd (getNFTsFromIds ids p l li e s)
  | op_getNFTsFromIdsDistinct ids p l li => snd (getNFTsFromIdsDistinct ids p l li e s)
  | op_getNFTsNotInIds ids p l li => snd (getNFTsNotInIds ids p l li e s)
  | op_getNFTsFromCategories codes p l li => snd (getNFTsFromCategories codes p l li e s)
  | op_createNFT dto => snd (createNFT dto e s)
  | op_findMongoNftFromId id => snd (findMongoNftFromId id e s)
  | op_getNFTsForSerie NFT p l => snd (getNFTsForSerie NFT p l e s)
  end.

(** The operations that write: [createNFT] to [NftModel], [getNFT] with
    [incViews] set to [NftViewModel]. *)
Definition writes_nfts (o : Operation) : bool :=
  match o with
  | op_createNFT _ => true
  | _ => false
  end.

Definition writes_views (o : Operation) : bool :=
  match o with
  | op_getNFT _ true _ _ => true
  | _ => false
  end.

(** The collections of [s'] are those of [s], but for [NftModel] when
    [n] is set and for [NftViewModel] when [v] is. *)
Definition unchanged (n v : bool) (s s' : Store) : Prop :=
  users s' = users s /\ follows s' = follows s /\
  categoryDocs s' = categoryDocs s /\
  (n = false -> nfts s' = nfts s) /\
  (v = false -> nftViews s' = nftViews s).

(** Two chain records that differ at most by their categories. *)
Definition same_but_categories (a b : INFT.t) : Prop :=
  INFT.id b = INFT.id a /\ INFT.serieId b = INFT.serieId a /\
  INFT.owner b = INFT.owner a /\ INFT.creator b = INFT.creator a /\
  INFT.listed b = INFT.listed a /\ INFT.viewsCount b = INFT.viewsCount a.

(** The envelope [r], whose [nftEntities] is [nl], with each node merged
    once with the store. *)
Definition enriched_entities (s : Store) (r : Envelope) (nl : NodeList) : Envelope :=
  set_entities_nodes (map (mergeNFT s) (nodes nl)) r nl.

(** The categories a list of codes resolves to, in the order of the codes;
    the codes that do not resolve contribute nothing. *)
Fixpoint categories_of_codes (s : Store) (codes : list string) : list Category.t :=
  match codes with
  | [] => []
  | x :: codes' =>
      match category_of_code s x with
      | Some c => c :: categories_of_codes s codes'
      | None => categories_of_codes s codes'
      end
  end.

(** An indexer that answers every query with the one field [nftEntities]. *)
Definition entities_only (chain : list INFT.t) (q : QueriesBuilder.Query) : Envelope :=
  {| nftEntities := nftEntities (chain_indexer chain q); distinctSerieNfts := None |}.

Definition entities_only_env : Env :=
  {| TIME_BETWEEN_SAME_USER_VIEWS := 60000;
     indexer := entities_only sample_chain;
     fault := fun _ => None;
     now := 0 |}.

(** The first rejection the schedule holds among the [k] external calls
    made from the moment [n] calls have been logged. *)
Fixpoint first_fault (e : Env) (n k : nat) : option string :=
  match k with
  | O => None
  | S k' =>
      match fault e n with
      | Some msg => Some msg
      | None => first_fault e (S n) k'
      end
  end.

(** What the list methods that read [distinctSerieNfts] do with the answer
    to their query [q], [run] being the outcome of the method from the store
    [s] and [msg] its error.  The request is made; if it fails, or if the
    answer lacks the field, the method throws and nothing else is called.
    Otherwise one lookup per node is made, all of them whatever some may do;
    the method throws if one rejects, and else returns the answer with the
    nodes of the field enriched one by one, in their order -- every node
    keeps all but its categories, [totalCount] and [nftEntities] are as the
    indexer gave them. *)
Definition enriches_in_place (e : Env) (s : Store) (q : QueriesBuilder.Query)
    (msg : string) (run : result Envelope * Store) : Prop :=
  match fault e (length (trace s)), distinctSerieNfts (indexer e q) with
  | None, Some nl =>
      snd run = add_calls (call_request q :: enrichment_calls (nodes nl)) s /\
      match first_fault e (S (length (trace s))) (length (nodes nl)) with
      | Some _ => fst run = Throw msg
      | None =>
          exists nl',
            fst run = Ok {| nftEntities := nftEntities (indexer e q);
                            distinctSerieNfts := Some nl' |} /\
            totalCount nl' = totalCount nl /\
            Forall2 (fun a b => b = mergeNFT s a /\ same_but_categories a b)
                    (nodes nl) (nodes nl')
      end
  | _, _ => run = (Throw msg, add_calls [call_request q] s)
  end.

(** The six calls [getStatNFTsUser] makes for a user, in the order of the
    array given to [Promise.all]. *)
Definition stat_calls (walletId : string) (user : User.t) : list ExtCall :=
  [ call_request (QueriesBuilder.countOwnerOwned walletId);
    call_request (QueriesBuilder.countOwnerOwnedListed walletId);
    call_request (QueriesBuilder.countOwnerOwnedUnlisted walletId);
    call_request (QueriesBuilder.countCreated walletId);
    call_Follow_find (by_followed (User._id user));
    call_Follow_find (by_follower (User._id user)) ].

(** *** Failures and their propagation *)

(** [propagates m]: the call [m] only adds calls to the log, and if one of
    the external calls it makes rejects, [m] rejects. *)
Definition propagates {A} (m : M A) : Prop :=
  forall e s, exists cs,
    trace (snd (m e s)) = trace s ++ cs /\
    ((exists i, (i < length cs)%nat /\ fault e (length (trace s) + i) <> None) ->
     exists msg, fst (m e s) = Throw msg).

(** One of the external calls made by the operation [o] from the store [s]
    rejected: a call to the indexer, to the local store, or one of the
    lookups of an enrichment. *)
Definition some_call_rejected (o : Operation) (e : Env) (s : Store) : Prop :=
  exists n, (length (trace s) <= n < length (trace (final_store o e s)))%nat /\
            fault e n <> None.

(** The operation [o] has nothing to return: the record or the user asked
    for is absent, or the indexer's answer lacks the field the operation
    reads. *)
Definition nothing_to_return (o : Operation) (e : Env) (s : Store) : Prop :=
  match o with
  | op_getNFT id _ _ _ =>
      forall nl, nftEntities (indexer e (QueriesBuilder.NFTfromId id)) = Some nl ->
                 nodes nl = []
  | op_getStatNFTsUser w => user_of_wallet s w = None
  | op_getAllNFTs p l li =>
      distinctSerieNfts (indexer e (QueriesBuilder.allNFTs l p li)) = None
  | op_getNFTsFromOwner o p l li =>
      distinctSerieNfts (indexer e (QueriesBuilder.NFTsFromOwnerId o l p li)) = None
  | op_getNFTsFromCreator c p l li =>
      distinctSerieNfts (indexer e (QueriesBuilder.NFTsFromCreatorId c l p li)) = None
  | op_getNFTsFromIds ids p l li =>
      nftEntities (indexer e (QueriesBuilder.NFTsFromIds ids l p li)) = None
  | op_getNFTsFromIdsDistinct ids p l li =>
      distinctSerieNfts (indexer e (QueriesBuilder.NFTsFromIds ids l p li)) = None
  | op_getNFTsNotInIds ids p l li =>
      distinctSerieNfts (indexer e (QueriesBuilder.NFTsNotInIds ids l p li)) = None
  | _ => False
  end.
(* ===================================================================== *)
(** ** Running the calls *)
(* ===================================================================== *)

Lemma add_calls_nil s : add_calls [] s = s.
Proof. destruct s; unfold add_calls; simpl; now rewrite app_nil_r. Qed.

Lemma add_calls_add_calls cs ds s :
  add_calls ds (add_calls cs s) = add_calls (cs ++ ds) s.
Proof. unfold add_calls; simpl; now rewrite app_assoc. Qed.

Lemma mergeNFT_add_calls cs s NFT : mergeNFT (add_calls cs s) NFT = mergeNFT s NFT.
Proof. reflexivity. Qed.

Lemma external_reliable {A} e s c (k : Env -> Store -> A * Store) :
  reliable e ->
  external c k e s = (let (a, s2) := k e (add_calls [c] s) in (Ok a, s2)).
Proof. intros H. unfold external. now rewrite H. Qed.

Lemma external_fault {A} e s c (k : Env -> Store -> A * Store) msg :
  fault e (length (trace s)) = Some msg ->
  external c k e s = (Throw msg, add_calls [c] s).
Proof. intros H. unfold external. now rewrite H. Qed.

Lemma populateNFT_reliable e s NFT :
  reliable e ->
  populateNFT NFT e s = (Ok (mergeNFT s NFT), add_calls [call_Nft_findOne (INFT.id NFT)] s).
Proof.
  intros H. unfold populateNFT, bind, Nft_findOne_populate.
  rewrite external_reliable by assumption. unfold reading, mergeNFT. simpl.
  destruct (find _ (nfts s)); reflexivity.
Qed.

Lemma Promise_all_populate_reliable e l : forall s,
  reliable e ->
  Promise_all (map populateNFT l) e s =
  (Ok (map (mergeNFT s) l),
   add_calls (map (fun n => call_Nft_findOne (INFT.id n)) l) s).
Proof.
  induction l as [|n l IH]; intros s H; simpl.
  - unfold ret. now rewrite add_calls_nil.
  - unfold both. rewrite populateNFT_reliable by assumption.
    rewrite IH by assumption. now rewrite add_calls_add_calls.
Qed.

(* ===================================================================== *)
(** ** [getNFT] *)
(* ===================================================================== *)

Lemma mergeNFT_serieId s NFT : INFT.serieId (mergeNFT s NFT) = INFT.serieId NFT.
Proof. unfold mergeNFT. destruct (find _ _); reflexivity. Qed.

Lemma mergeNFT_id s NFT : INFT.id (mergeNFT s NFT) = INFT.id NFT.
Proof. unfold mergeNFT. destruct (find _ _); reflexivity. Qed.

(** What [getNFT] does when the record is found and every collaborator
    answers: the value it returns, the store it leaves, the calls it makes. *)
Lemma getNFT_reliable e s id incViews w ip nl NFT0 rest :
  reliable e ->
  nftEntities (indexer e (QueriesBuilder.NFTfromId id)) = Some nl ->
  nodes nl = NFT0 :: rest ->
  let NFT := mergeNFT s NFT0 in
  let views := filter (view_matches (scope_query NFT0 id)) (nftViews s) in
  let newView := NftView.mk (INFT.serieId NFT0) id w ip (now e) in
  let fetch := [call_request (QueriesBuilder.NFTfromId id);
                call_Nft_findOne (INFT.id NFT0)] in
  let read_views := fetch ++ [call_NftView_find (scope_query NFT0 id)] in
  getNFT id incViews w ip e s =
  if incViews then
    if cooldown_test e ip views
    then (Ok (INFT.with_viewsCount (length views + 1) NFT),
          add_view newView (add_calls (read_views ++ [call_NftView_save newView]) s))
    else (Ok (INFT.with_viewsCount (length views) NFT), add_calls read_views s)
  else (Ok (INFT.with_viewsCount 0 NFT), add_calls fetch s).
Proof.
  intros Hrel Hidx Hnodes. cbv zeta.
  unfold getNFT, try_catch, bind, request.
  rewrite external_reliable by assumption. unfold reading at 1. rewrite Hidx.
  simpl property. unfold ret at 1. rewrite Hnodes.
  rewrite populateNFT_reliable by assumption. rewrite add_calls_add_calls.
  destruct incViews; [| reflexivity].
  unfold Date_now, read, NftView_find.
  rewrite external_reliable by assumption. unfold reading. rewrite add_calls_add_calls.
  rewrite mergeNFT_serieId. fold (scope_query NFT0 id).
  change (nftViews (add_calls _ s)) with (nftViews s).
  fold (cooldown_test e ip (filter (view_matches (scope_query NFT0 id)) (nftViews s))).
  destruct (cooldown_test e ip _).
  - unfold NftView_save. rewrite external_reliable by assumption.
    rewrite add_calls_add_calls. reflexivity.
  - reflexivity.
Qed.

Lemma strict_eqb_eq a b : strict_eqb a b = true <-> a = b.
Proof.
  destruct a as [x|], b as [y|]; simpl; split; intros H;
    try discriminate; try reflexivity.
  - apply String.eqb_eq in H. now subst.
  - injection H as ->. apply String.eqb_refl.
Qed.

(** [Math.max] of a list is [-Infinity] on the empty list, and otherwise a
    member of the list that bounds them all. *)
Lemma Math_max_cases l :
  (l = [] /\ Math_max l = NegInfinity) \/
  (exists m, Math_max l = Num m /\ In m l /\ forall z, In z l -> (z <= m)%Z).
Proof.
  induction l as [|a l IH].
  - left. split; reflexivity.
  - right. simpl. destruct IH as [[-> ->] | (m & -> & Hin & Hmax)].
    + exists a. simpl. repeat split; auto. intros z [<- | []]. lia.
    + exists (Z.max a m). simpl. split; [reflexivity | split].
      * destruct (Z.max_spec a m) as [[_ ->] | [_ ->]]; auto.
      * intros z [<- | Hz]; [lia | specialize (Hmax z Hz); lia].
Qed.

Lemma older_than_cooldown d T l :
  js_gt (js_sub d (Math_max l)) T = true <-> forall z, In z l -> (T < d - z)%Z.
Proof.
  destruct (Math_max_cases l) as [[-> ->] | (m & -> & Hin & Hmax)]; simpl.
  - split; [intros _ z [] | reflexivity].
  - rewrite Z.ltb_lt. split.
    + intros H z Hz. specialize (Hmax z Hz). lia.
    + intros H. now apply H.
Qed.

Lemma truthy_present ip : truthy ip = true <-> present ip.
Proof.
  unfold truthy, present. destruct ip as [x|].
  - rewrite negb_true_iff, String.eqb_neq. split.
    + intros H. exists x. now split.
    + intros (y & [= ->] & H). exact H.
  - split; [discriminate | intros (y & Hy & _); discriminate].
Qed.

(** The test of the source, read as a statement about the prior events. *)
Lemma cooldown_test_spec e ip views :
  cooldown_test e ip views = true <-> present ip /\ none_within_cooldown e ip views.
Proof.
  unfold cooldown_test, none_within_cooldown.
  rewrite andb_true_iff, truthy_present, orb_true_iff, older_than_cooldown.
  split; intros [Hp H]; split; trivial.
  - intros v Hv Hip. destruct H as [H | H].
    + apply Nat.eqb_eq in H. destruct views; [destruct Hv | discriminate].
    + apply H. apply in_map. apply filter_In. split; trivial.
      now apply strict_eqb_eq.
  - right. intros z Hz. apply in_map_iff in Hz as (v & <- & Hv).
    apply filter_In in Hv as [Hv Hip]. apply H; trivial. now apply strict_eqb_eq.
Qed.

Lemma same_views_not_recorded (s s' : Store) :
  nftViews s' = nftViews s -> ~ records_a_view s s'.
Proof.
  intros E [v H]. rewrite E in H. apply (f_equal (@length _)) in H.
  rewrite length_app in H. simpl in H. lia.
Qed.

(** ** Claim C1 *)

(** C1, as the code has it.  When [getNFT] is called with [incViews] set,
    finds the record and its collaborators answer: with a viewer address
    present (a non-empty string), a new view event is recorded if and only
    if no prior event of the record's scope that comes from that same
    address lies within [TIME_BETWEEN_SAME_USER_VIEWS] of the clock -- so
    also when the scope holds no event of that address at all; the returned
    [viewsCount] is the number of prior events plus one when the event is
    recorded and the number of prior events otherwise.  With the address
    absent ([null] or empty) nothing is recorded and the number of prior
    events is returned. *)
Theorem getNFT_view_cooldown e s id w ip nl NFT0 rest :
  reliable e ->
  nftEntities (indexer e (QueriesBuilder.NFTfromId id)) = Some nl ->
  nodes nl = NFT0 :: rest ->
  let views := filter (view_matches (scope_query NFT0 id)) (nftViews s) in
  let r := fst (getNFT id true w ip e s) in
  let s' := snd (getNFT id true w ip e s) in
  (present ip ->
     (records_a_view s s' <-> none_within_cooldown e ip views) /\
     (records_a_view s s' ->
        nftViews s' = nftViews s ++ [NftView.mk (INFT.serieId NFT0) id w ip (now e)] /\
        r = Ok (INFT.with_viewsCount (length views + 1) (mergeNFT s NFT0))) /\
     (~ records_a_view s s' ->
        nftViews s' = nftViews s /\
        r = Ok (INFT.with_viewsCount (length views) (mergeNFT s NFT0)))) /\
  (~ present ip ->
     nftViews s' = nftViews s /\
     r = Ok (INFT.with_viewsCount (length views) (mergeNFT s NFT0))).
Proof.
  intros Hrel Hidx Hnodes views r s'. subst r s'.
  rewrite (getNFT_reliable e s id true w ip nl NFT0 rest Hrel Hidx Hnodes).
  cbv zeta. fold views.
  pose proof (cooldown_test_spec e ip views) as Hspec.
  destruct (cooldown_test e ip views); simpl fst; simpl snd.
  - match goal with |- context [records_a_view s ?s1] =>
      assert (Hrec : records_a_view s s1) by (eexists; reflexivity)
    end.
    destruct (proj1 Hspec eq_refl) as [Hp Hnone]. split.
    + intros _. split; [| split].
      * split; intros _; assumption.
      * intros _. split; reflexivity.
      * intros Hn. now destruct Hn.
    + intros Hn. now destruct Hn.
  - match goal with |- context [records_a_view s ?s1] =>
      assert (Hno : ~ records_a_view s s1)
        by (apply same_views_not_recorded; reflexivity)
    end.
    split.
    + intros Hp. split; [| split].
      * split; intros H; [now destruct Hno |].
        assert (false = true) by (apply Hspec; now split). discriminate.
      * intros H. now destruct Hno.
      * intros _. split; reflexivity.
    + intros _. split; reflexivity.
Qed.

Lemma present_sample_address : present (Some "1.2.3.4").
Proof. exists "1.2.3.4". split; [reflexivity | discriminate]. Qed.

Lemma sample_env_reliable t : reliable (sample_env t).
Proof. intros n. reflexivity. Qed.

(** The first view of NFT "42" by "1.2.3.4" is recorded and counted. *)
Lemma getNFT_view_cooldown_witness :
  let e := sample_env 1000 in
  let s' := snd (getNFT "42" true None (Some "1.2.3.4") e sample_store) in
  reliable e /\
  nftViews s' = [NftView.mk "0" "42" None (Some "1.2.3.4") 1000] /\
  fst (getNFT "42" true None (Some "1.2.3.4") e sample_store) =
  Ok (INFT.mk "42" "0" "alice" "bob" 1 [art] (Some 1%nat)).
Proof.
  intros e s'. split; [apply sample_env_reliable |].
  destruct (getNFT_view_cooldown e sample_store "42" None (Some "1.2.3.4")
              {| nodes := [raw "42" "0" "alice" "bob" 1]; totalCount := 1 |}
              (raw "42" "0" "alice" "bob" 1) []
              (sample_env_reliable 1000) eq_refl eq_refl) as [Hp _].
  destruct (Hp present_sample_address) as (Hiff & Hrec & _).
  apply Hrec. apply Hiff. intros v [].
Defined.

(** C1 as it is worded fails when the scope holds events, none of them
    from the viewer: NFT "42" was seen one second ago by "9.9.9.9" only, and
    the view of "1.2.3.4" is recorded although the scope is not empty and
    there is no most recent event of "1.2.3.4" to be older than the
    cooldown. *)
Lemma getNFT_new_viewer_counterexample :
  let e := sample_env 1000000 in
  let ip := Some "1.2.3.4" in
  let views := filter (view_matches (by_viewedId "42")) (nftViews seen_by_another) in
  ~ (records_a_view seen_by_another (snd (getNFT "42" true None ip e seen_by_another))
     <-> no_prior_or_latest_is_old e ip views).
Proof.
  intros e ip views [Himp _].
  assert (Hrec : records_a_view seen_by_another
                   (snd (getNFT "42" true None ip e seen_by_another))).
  { exists (NftView.mk "0" "42" None ip 1000000). vm_compute. reflexivity. }
  destruct (Himp Hrec) as [Hnil | (v & (Hin & Hip & _) & _)].
  - vm_compute in Hnil. discriminate.
  - vm_compute in Hin. destruct Hin as [<- | []]. vm_compute in Hip. discriminate.
Qed.

(** The cooldown at work: a first view at time 1000 is recorded; the same
    address is not counted again at 30000, nor at 61000 (exactly the
    cooldown later); it is at 61001. *)
Example view_cooldown_scenario :
  let ip := Some "1.2.3.4" in
  let first := getNFT "42" true None ip (sample_env 1000) sample_store in
  let second := getNFT "42" true None ip (sample_env 30000) (snd first) in
  let third := getNFT "42" true None ip (sample_env 61000) (snd second) in
  let fourth := getNFT "42" true None ip (sample_env 61001) (snd third) in
  map (fun run => option_map INFT.viewsCount
                    (match fst run with Ok NFT => Some NFT | Throw _ => None end))
      [first; second; third; fourth] =
  [Some (Some 1); Some (Some 1); Some (Some 1); Some (Some 2)]%nat /\
  map NftView.date (nftViews (snd fourth)) = [1000; 61001]%Z.
Proof. vm_compute. split; reflexivity. Qed.

(** ** Claim C5 *)

Lemma view_finds_app t u : view_finds (t ++ u) = view_finds t ++ view_finds u.
Proof. apply flat_map_app. Qed.

Lemma view_saves_app t u : view_saves (t ++ u) = view_saves t ++ view_saves u.
Proof. apply flat_map_app. Qed.

Lemma scope_query_spec NFT id v :
  view_matches (scope_query NFT id) v = true <-> in_scope NFT id v.
Proof.
  unfold scope_query, in_scope.
  destruct (String.eqb_spec (INFT.serieId NFT) "0") as [E | N]; simpl;
    rewrite String.eqb_eq; split.
  - intros H. right. now split.
  - intros [[N _] | [_ H]]; [now destruct N | exact H].
  - intros H. left. now split.
  - intros [[_ H] | [E _]]; [exact H | now destruct N].
Qed.

Lemma with_categories_serieId cs NFT :
  INFT.serieId (INFT.with_categories cs NFT) = INFT.serieId NFT.
Proof. reflexivity. Qed.

(** Closes a goal that compares the reads of view events of two logs. *)
Ltac same_view_finds :=
  cbn [snd trace log add_view]; rewrite ?view_finds_app;
  cbn [view_finds flat_map app]; rewrite ?app_nil_r; reflexivity.

(** Whatever the collaborators do, [getNFT] with [incViews] set reads the
    view events at most once, and then with the filter of the scope of the
    record it found. *)
Lemma getNFT_view_reads e s id w ip :
  let s' := snd (getNFT id true w ip e s) in
  view_finds (trace s') = view_finds (trace s) \/
  exists nl NFT0 rest,
    nftEntities (indexer e (QueriesBuilder.NFTfromId id)) = Some nl /\
    nodes nl = NFT0 :: rest /\
    view_finds (trace s') = view_finds (trace s) ++ [scope_query NFT0 id].
Proof.
  cbv zeta.
  unfold getNFT, try_catch, bind, request, populateNFT, bind, Nft_findOne_populate,
    Date_now, read, NftView_find, NftView_save, external, reading, property, ret, throw.
  cbv beta iota zeta.
  destruct (fault e (length (trace s))); [left; same_view_finds |].
  destruct (nftEntities (indexer e (QueriesBuilder.NFTfromId id))) as [nl|];
    [| left; same_view_finds].
  destruct (nodes nl) as [|NFT0 rest] eqn:Hn; [left; same_view_finds |].
  cbv beta iota zeta.
  destruct (fault e (length (trace (log _ s)))); [left; same_view_finds |].
  right. exists nl, NFT0, rest. split; [reflexivity | split; [exact Hn |]].
  match goal with
  | |- context [match option_map ?f ?o with _ => _ end] =>
      destruct (option_map f o) as [d|]
  end; cbv beta iota zeta; rewrite ?with_categories_serieId;
    fold (scope_query NFT0 id);
    (destruct (fault e (length (trace (log _ (log _ s)))));
     [same_view_finds |]);
    cbv beta iota zeta;
    (match goal with |- context [if ?c then _ else _] => destruct c end;
     [ destruct (fault e _); same_view_finds | same_view_finds ]).
Qed.

(** C5.  A call to [getNFT] with [incViews] set reads the view events at
    most once, with the filter of the record's scope; the events this filter
    selects are exactly the stored events whose [viewedSerie] is the
    record's serie id when that id is not "0", and exactly those whose
    [viewedId] is the requested id when it is "0".  When the record is found
    and the collaborators answer, the events are read, and the returned
    count is their number, or one more. *)
Theorem getNFT_views_scope e s id w ip :
  let s' := snd (getNFT id true w ip e s) in
  (view_finds (trace s') = view_finds (trace s) \/
   exists nl NFT0 rest,
     nftEntities (indexer e (QueriesBuilder.NFTfromId id)) = Some nl /\
     nodes nl = NFT0 :: rest /\
     view_finds (trace s') = view_finds (trace s) ++ [scope_query NFT0 id]) /\
  (forall nl NFT0 rest,
     reliable e ->
     nftEntities (indexer e (QueriesBuilder.NFTfromId id)) = Some nl ->
     nodes nl = NFT0 :: rest ->
     let NFT := mergeNFT s NFT0 in
     let views := filter (view_matches (scope_query NFT0 id)) (nftViews s) in
     view_finds (trace s') = view_finds (trace s) ++ [scope_query NFT0 id] /\
     (forall v, In v views <-> In v (nftViews s) /\ in_scope NFT id v) /\
     exists k, (k <= 1)%nat /\
       fst (getNFT id true w ip e s) =
       Ok (INFT.with_viewsCount (length views + k) NFT)).
Proof.
  cbv zeta. split; [apply getNFT_view_reads |].
  intros nl NFT0 rest Hrel Hidx Hnodes.
  rewrite (getNFT_reliable e s id true w ip nl NFT0 rest Hrel Hidx Hnodes).
  cbv zeta. split; [| split].
  - destruct (cooldown_test e ip _); simpl snd; simpl trace;
      rewrite !view_finds_app; simpl; now rewrite ?app_nil_r.
  - intros v. rewrite filter_In, scope_query_spec. unfold in_scope.
    now rewrite mergeNFT_serieId.
  - destruct (cooldown_test e ip _); simpl fst.
    + exists 1%nat. split; [lia | reflexivity].
    + exists 0%nat. split; [lia |]. now rewrite Nat.add_0_r.
Qed.

(** NFT "7" belongs to serie "s1": the events read are those of the serie. *)
Lemma getNFT_views_scope_witness :
  let e := sample_env 1000 in
  let NFT0 := raw "7" "s1" "alice" "alice" 0 in
  reliable e /\
  view_finds (trace (snd (getNFT "7" true None None e sample_store))) =
    [by_viewedSerie "s1"] /\
  forall v, In v (filter (view_matches (by_viewedSerie "s1")) (nftViews sample_store)) <->
            In v (nftViews sample_store) /\ in_scope (mergeNFT sample_store NFT0) "7" v.
Proof.
  intros e NFT0. split; [apply sample_env_reliable |].
  destruct (getNFT_views_scope e sample_store "7" None None) as [_ H].
  destruct (H {| nodes := [NFT0]; totalCount := 1 |} NFT0 []
              (sample_env_reliable 1000) eq_refl eq_refl) as (Hq & Hs & _).
  split; [exact Hq | exact Hs].
Defined.

(** ** Invariants of the combinators *)

Section Keeps.
Variable R : Store -> Store -> Prop.
Hypothesis R_refl : forall s, R s s.
Hypothesis R_trans : forall s1 s2 s3, R s1 s2 -> R s2 s3 -> R s1 s3.

Lemma keeps_ret {A} (a : A) : keeps R (ret a).
Proof. intros e s. apply R_refl. Qed.

Lemma keeps_throw {A} msg : keeps R (@throw A msg).
Proof. intros e s. apply R_refl. Qed.

Lemma keeps_property {A} (o : option A) : keeps R (property o).
Proof. destruct o; [apply keeps_ret | apply keeps_throw]. Qed.

Lemma keeps_bind {A B} (m : M A) (k : A -> M B) :
  keeps R m -> (forall a, keeps R (k a)) -> keeps R (bind m k).
Proof.
  intros Hm Hk e s. unfold bind. specialize (Hm e s).
  destruct (m e s) as [[a | msg] s1]; simpl in *.
  - eapply R_trans; [exact Hm | apply Hk].
  - exact Hm.
Qed.

Lemma keeps_try_catch {A} (m : M A) (h : string -> M A) :
  keeps R m -> (forall msg, keeps R (h msg)) -> keeps R (try_catch m h).
Proof.
  intros Hm Hh e s. unfold try_catch. specialize (Hm e s).
  destruct (m e s) as [[a | msg] s1]; simpl in *.
  - exact Hm.
  - eapply R_trans; [exact Hm | apply Hh].
Qed.

(** A call that only reads keeps [R] as soon as logging it does. *)
Lemma keeps_external_reading {A} c (f : Env -> Store -> A) :
  (forall s, R s (log c s)) -> keeps R (external c (reading f)).
Proof.
  intros Hlog e s. unfold external, reading.
  destruct (fault e (length (trace s))); apply Hlog.
Qed.

End Keeps.

Section Returns.
Context {A : Type} (P : A -> Prop).

Lemma returns_ret (a : A) : P a -> returns P (ret a).
Proof. intros H e s b [= <-]. exact H. Qed.

Lemma returns_throw msg : returns P (throw msg).
Proof. intros e s b [=]. Qed.

Lemma returns_bind {B} (m : M B) (k : B -> M A) :
  (forall b, returns P (k b)) -> returns P (bind m k).
Proof.
  intros Hk e s a. unfold bind.
  destruct (m e s) as [[b | msg] s1]; [apply Hk | discriminate].
Qed.

(** A handler that throws again adds no returned value. *)
Lemma returns_try_rethrow (m : M A) msg :
  returns P m -> returns P (try_catch m (fun _ => throw msg)).
Proof.
  intros Hm e s a. unfold try_catch. specialize (Hm e s a).
  destruct (m e s) as [[b | msg'] s1]; [exact Hm | discriminate].
Qed.

End Returns.

Lemma views_untouched_refl s : views_untouched s s.
Proof. repeat split. Qed.

Lemma views_untouched_trans s1 s2 s3 :
  views_untouched s1 s2 -> views_untouched s2 s3 -> views_untouched s1 s3.
Proof.
  intros (A1 & B1 & C1) (A2 & B2 & C2). repeat split; congruence.
Qed.

Lemma views_untouched_log c s : is_view_call c = false -> views_untouched s (log c s).
Proof.
  intros H. repeat split; simpl.
  - rewrite view_finds_app. destruct c; try discriminate; simpl; now rewrite app_nil_r.
  - rewrite view_saves_app. destruct c; try discriminate; simpl; now rewrite app_nil_r.
Qed.

(** Discharges the side conditions of the invariant lemmas at
    [views_untouched]. *)
Ltac untouched :=
  try exact views_untouched_refl; try exact views_untouched_trans;
  try (intros; apply keeps_throw; exact views_untouched_refl);
  try (intros; apply keeps_ret; exact views_untouched_refl);
  try (apply keeps_property; exact views_untouched_refl);
  try (apply keeps_external_reading; intros; now apply views_untouched_log).

Lemma populateNFT_views_untouched NFT : keeps views_untouched (populateNFT NFT).
Proof.
  apply keeps_bind; untouched. intros [d|]; untouched.
Qed.

(** ** Claim C10 *)

(** C10.  With [incViews] false, whatever the store holds and whatever the
    collaborators do, [getNFT] reads no view event and writes none, leaves
    the stored view events as they are, and any record it returns has
    [viewsCount] 0; and it does return the record when it is found and the
    collaborators answer. *)
Theorem getNFT_without_incViews e s id w ip :
  let r := fst (getNFT id false w ip e s) in
  let s' := snd (getNFT id false w ip e s) in
  views_untouched s s' /\
  (forall NFT, r = Ok NFT -> INFT.viewsCount NFT = Some 0%nat) /\
  (forall nl NFT0 rest,
     reliable e ->
     nftEntities (indexer e (QueriesBuilder.NFTfromId id)) = Some nl ->
     nodes nl = NFT0 :: rest ->
     r = Ok (INFT.with_viewsCount 0 (mergeNFT s NFT0))).
Proof.
  cbv zeta. split; [| split].
  - revert e s. change (keeps views_untouched (getNFT id false w ip)).
    unfold getNFT. apply keeps_try_catch; untouched.
    apply keeps_bind; untouched.
    intros r. apply keeps_bind; untouched.
    intros nl. destruct (nodes nl) as [|NFT rest]; untouched.
    apply keeps_bind; untouched. apply populateNFT_views_untouched.
  - revert e s.
    change (returns (fun NFT => INFT.viewsCount NFT = Some 0%nat) (getNFT id false w ip)).
    unfold getNFT. apply returns_try_rethrow.
    apply returns_bind. intros r. apply returns_bind. intros nl.
    destruct (nodes nl) as [|NFT rest]; [apply returns_throw |].
    apply returns_bind. intros NFT'. now apply returns_ret.
  - intros nl NFT0 rest Hrel Hidx Hnodes.
    now rewrite (getNFT_reliable e s id false w ip nl NFT0 rest Hrel Hidx Hnodes).
Qed.

(** NFT "42" has one stored view; without [incViews] the count is 0 and the
    views are untouched. *)
Lemma getNFT_without_incViews_witness :
  let e := sample_env 1000000 in
  reliable e /\
  fst (getNFT "42" false None (Some "1.2.3.4") e seen_by_another) =
  Ok (INFT.mk "42" "0" "alice" "bob" 1 [art] (Some 0%nat)) /\
  nftViews (snd (getNFT "42" false None (Some "1.2.3.4") e seen_by_another)) =
  nftViews seen_by_another.
Proof.
  intros e. split; [apply sample_env_reliable |].
  destruct (getNFT_without_incViews e seen_by_another "42" None (Some "1.2.3.4"))
    as ((Hv & _) & _ & Hok).
  split; [| exact Hv].
  exact (Hok {| nodes := [raw "42" "0" "alice" "bob" 1]; totalCount := 1 |}
           (raw "42" "0" "alice" "bob" 1) [] (sample_env_reliable 1000000)
           eq_refl eq_refl).
Defined.

(** ** Claim C4 *)

Lemma request_reliable e s q :
  reliable e -> request q e s = (Ok (indexer e q), add_calls [call_request q] s).
Proof. intros H. unfold request. now rewrite external_reliable. Qed.

Lemma Follow_find_reliable e s q :
  reliable e ->
  Follow_find q e s =
  (Ok (filter (follow_matches q) (follows s)), add_calls [call_Follow_find q] s).
Proof. intros H. unfold Follow_find. now rewrite external_reliable. Qed.

Lemma edges_to_spec u s f :
  In f (edges_to u s) <-> In f (follows s) /\ Follow.followed f = u.
Proof. unfold edges_to. now rewrite filter_In, String.eqb_eq. Qed.

Lemma edges_from_spec u s f :
  In f (edges_from u s) <-> In f (follows s) /\ Follow.follower f = u.
Proof. unfold edges_from. now rewrite filter_In, String.eqb_eq. Qed.

Lemma no_edge_no_length {A} (p : A -> bool) (l : list A) :
  (forall x, In x l -> p x = false) -> length (filter p l) = 0%nat.
Proof.
  induction l as [|a l IH]; intros H; simpl; [reflexivity |].
  rewrite (H a (or_introl eq_refl)). apply IH. intros x Hx. apply H. now right.
Qed.

(** C4.  For a wallet whose user record exists, when the indexer answers
    the four count queries and the store answers, [getStatNFTsUser] returns
    the four totals the indexer reports, the number of follow edges that
    end at the user's local id as [countFollowers] and the number that
    start at it as [countFollowed]; both are 0 for a user with no follow
    edge.  For a wallet with no user record the call fails, whatever the
    collaborators do. *)
Theorem getStatNFTsUser_counts e s walletId :
  (forall user owned ownedListed ownedUnlisted created,
     reliable e ->
     user_of_wallet s walletId = Some user ->
     nftEntities (indexer e (QueriesBuilder.countOwnerOwned walletId)) = Some owned ->
     nftEntities (indexer e (QueriesBuilder.countOwnerOwnedListed walletId)) = Some ownedListed ->
     nftEntities (indexer e (QueriesBuilder.countOwnerOwnedUnlisted walletId)) = Some ownedUnlisted ->
     nftEntities (indexer e (QueriesBuilder.countCreated walletId)) = Some created ->
     fst (getStatNFTsUser walletId e s) =
     Ok {| countOwned := totalCount owned;
           countOwnedListed := totalCount ownedListed;
           countOwnedUnlisted := totalCount ownedUnlisted;
           countCreated := totalCount created;
           countFollowers := length (edges_to (User._id user) s);
           countFollowed := length (edges_from (User._id user) s) |} /\
     ((forall f, In f (follows s) ->
         Follow.followed f <> User._id user /\ Follow.follower f <> User._id user) ->
      length (edges_to (User._id user) s) = 0%nat /\
      length (edges_from (User._id user) s) = 0%nat)) /\
  (user_of_wallet s walletId = None ->
   fst (getStatNFTsUser walletId e s) = Throw "Couldn't get users stat").
Proof.
  split.
  - intros user owned ownedListed ownedUnlisted created Hrel Huser H1 H2 H3 H4.
    split.
    + unfold getStatNFTsUser, try_catch, bind, User_findOne.
      rewrite external_reliable by assumption. unfold reading.
      change (find _ (users (add_calls _ s))) with (user_of_wallet s walletId).
      rewrite Huser. unfold both.
      rewrite !request_reliable, !Follow_find_reliable by assumption.
      rewrite H1, H2, H3, H4. reflexivity.
    + intros Hnone. split; apply no_edge_no_length; intros f Hf;
        apply String.eqb_neq; now apply Hnone.
  - intros Hnone. unfold getStatNFTsUser, try_catch, bind, User_findOne, external, reading.
    destruct (fault e (length (trace s))); [reflexivity |].
    change (find _ (users (log _ s))) with (user_of_wallet s walletId).
    now rewrite Hnone.
Qed.

(** Bob is known, owns nothing, created one NFT, follows alice and has no
    follower. *)
Lemma getStatNFTsUser_counts_witness :
  let e := sample_env 0 in
  reliable e /\
  user_of_wallet sample_store "bob" = Some (User.mk "u-bob" "bob") /\
  fst (getStatNFTsUser "bob" e sample_store) =
  Ok {| countOwned := 0; countOwnedListed := 0; countOwnedUnlisted := 0;
        countCreated := 1; countFollowers := 0; countFollowed := 1 |}.
Proof.
  intros e. split; [apply sample_env_reliable |]. split; [reflexivity |].
  destruct (getStatNFTsUser_counts e sample_store "bob") as [Hok _].
  destruct (Hok (User.mk "u-bob" "bob")
              {| nodes := []; totalCount := 0 |} {| nodes := []; totalCount := 0 |}
              {| nodes := []; totalCount := 0 |} {| nodes := []; totalCount := 1 |}
              (sample_env_reliable 0) eq_refl eq_refl eq_refl eq_refl eq_refl)
    as [H _].
  exact H.
Defined.

(** ** [Promise.all] over calls that read the store *)

Lemma Promise_all_reading {X A} e (f : X -> M A) (g : Store -> X -> A)
    (c : X -> ExtCall) (l : list X) :
  (forall x s, f x e s = (Ok (g s x), add_calls [c x] s)) ->
  (forall cs s x, g (add_calls cs s) x = g s x) ->
  forall s, Promise_all (map f l) e s = (Ok (map (g s) l), add_calls (map c l) s).
Proof.
  intros Hf Hg. induction l as [|x l IH]; intros s; simpl.
  - unfold ret. now rewrite add_calls_nil.
  - unfold both. rewrite Hf, IH, add_calls_add_calls.
    rewrite (map_ext (g (add_calls [c x] s)) (g s)) by (intros; apply Hg).
    reflexivity.
Qed.

Lemma getCategoryByCode_reliable e s x :
  reliable e ->
  getCategoryByCode x e s = (Ok (category_of_code s x), add_calls [call_Category_findOne x] s).
Proof. intros H. unfold getCategoryByCode. now rewrite external_reliable. Qed.

(** ** Claim C7 *)

(** C7.  When the store answers, [createNFT] is never rejected: it resolves
    each code of the DTO, keeps one entry per code in the order of the
    codes -- the reference of the category for a code that resolves, a
    [null] entry for a code that does not -- and persists, and returns, a
    new local record with the given chain id and these entries. *)
Theorem createNFT_keeps_unresolved_slots e s nftDTO :
  reliable e ->
  let codes := INftDto.categories nftDTO in
  let entries := map (fun x => option_map Category._id (category_of_code s x)) codes in
  let doc := IMongoNft.mk (INftDto.chainId nftDTO) (Some entries) in
  fst (createNFT nftDTO e s) = Ok doc /\
  nfts (snd (createNFT nftDTO e s)) = nfts s ++ [doc] /\
  length entries = length codes /\
  forall i x, nth_error codes i = Some x ->
    (category_of_code s x = None -> nth_error entries i = Some None) /\
    (forall c, category_of_code s x = Some c ->
               nth_error entries i = Some (Some (Category._id c))).
Proof.
  intros Hrel codes entries doc.
  assert (Hrun : createNFT nftDTO e s =
                 (Ok doc, add_nft doc
                            (add_calls (map call_Category_findOne codes ++ [call_Nft_save doc]) s))).
  { unfold createNFT, try_catch, bind.
    rewrite (Promise_all_reading e getCategoryByCode category_of_code call_Category_findOne)
      by (intros; try reflexivity; now apply getCategoryByCode_reliable).
    unfold Nft_save. rewrite external_reliable by assumption.
    rewrite add_calls_add_calls, map_map. reflexivity. }
  rewrite Hrun. split; [reflexivity |]. split; [reflexivity |].
  split; [apply length_map |].
  intros i x Hi. unfold entries.
  split; [intros Hx | intros c Hx]; rewrite nth_error_map, Hi; simpl; now rewrite Hx.
Qed.

(** A record for chain id "7" with the codes "art" and "bogus": the second
    entry is [null], and the record is stored. *)
Lemma createNFT_keeps_unresolved_slots_witness :
  let e := sample_env 0 in
  let doc := IMongoNft.mk "7" (Some [Some "c-art"; None]) in
  reliable e /\
  fst (createNFT (INftDto.mk "7" ["art"; "bogus"]) e sample_store) = Ok doc /\
  nfts (snd (createNFT (INftDto.mk "7" ["art"; "bogus"]) e sample_store)) =
  nfts sample_store ++ [doc].
Proof.
  intros e doc. split; [apply sample_env_reliable |].
  destruct (createNFT_keeps_unresolved_slots e sample_store
              (INftDto.mk "7" ["art"; "bogus"]) (sample_env_reliable 0))
    as (Hok & Hst & _).
  split; [exact Hok | exact Hst].
Defined.

(** ** Claim C8 *)

Lemma no_id_all_null l : ids_of l = [] <-> forallb is_null l = true.
Proof.
  induction l as [|[o|] l IH]; simpl.
  - split; reflexivity.
  - split; discriminate.
  - exact IH.
Qed.

Lemma all_null_as_stored (l : list (option ObjectId)) :
  forallb is_null l = true ->
  map (option_map Category._id) (map (fun _ => @None Category.t) l) = l.
Proof.
  induction l as [|[o|] l IH]; simpl; intros H.
  - reflexivity.
  - discriminate.
  - now rewrite IH.
Qed.

Lemma resolve_refs_stored cats l :
  Forall (fun c => In c cats) (resolve_refs cats l).
Proof.
  induction l as [|r l IH]; simpl; [constructor |].
  destruct r as [o|]; simpl; [| exact IH].
  destruct (find _ cats) as [c|] eqn:Hc; [| exact IH].
  constructor; [| exact IH]. now apply find_some in Hc as [Hc _].
Qed.

Lemma resolve_refs_ids s l :
  map Category._id (resolve_refs (categoryDocs s) l) = filter (has_category s) (ids_of l).
Proof.
  induction l as [|r l IH]; simpl; [reflexivity |].
  destruct r as [o|]; simpl; [| exact IH].
  unfold has_category at 1.
  destruct (find _ (categoryDocs s)) as [c|] eqn:Hc.
  - pose proof (find_some _ _ Hc) as [Hin Hid].
    assert (Hex : existsb (fun c0 => Category._id c0 =? o) (categoryDocs s) = true)
      by (apply existsb_exists; now exists c).
    rewrite Hex. simpl. apply String.eqb_eq in Hid. now rewrite Hid, IH.
  - assert (Hex : existsb (fun c0 => Category._id c0 =? o) (categoryDocs s) = false).
    { apply not_true_iff_false. intros H. apply existsb_exists in H as (c & Hin & Hid).
      now rewrite (find_none _ _ Hc c Hin) in Hid. }
    now rewrite Hex.
Qed.

(** What [populate] yields is the record with its categories resolved. *)
Lemma populate_categories_resolved s d :
  categories_resolved s d (populate_categories (categoryDocs s) d).
Proof.
  unfold categories_resolved, populate_categories. simpl. split; [reflexivity |].
  destruct (IMongoNft.categories d) as [l|]; [| reflexivity].
  destruct (forallb is_null l) eqn:Hnull; split.
  - intros _. now apply all_null_as_stored.
  - intros Hid. destruct Hid. now apply no_id_all_null.
  - intros Hid. apply no_id_all_null in Hid. congruence.
  - intros _. exists (resolve_refs (categoryDocs s) l).
    split; [reflexivity |]. split; [apply resolve_refs_stored | apply resolve_refs_ids].
Qed.

(** C8.  [findMongoNftFromId] answers with the local record of the chain id,
    its categories resolved, when there is one, and with [null] -- not an
    error -- when there is none; it throws only when the call to the local
    store fails, and then the error is "Couldn't get mongo NFT".  The
    categories are resolved in this sense: the ids of the record that have
    a category document are replaced by these documents, in order, the
    other entries being dropped; a list that holds no id at all comes back
    as it is stored. *)
Theorem findMongoNftFromId_absent_is_null e s nftId :
  (~ next_call_fails e s ->
   (forall d, local_record s nftId = Some d ->
      IMongoNft.chainId d = nftId /\
      exists r, fst (findMongoNftFromId nftId e s) = Ok (Some r) /\
                categories_resolved s d r) /\
   (local_record s nftId = None -> fst (findMongoNftFromId nftId e s) = Ok None)) /\
  (next_call_fails e s ->
   fst (findMongoNftFromId nftId e s) = Throw "Couldn't get mongo NFT") /\
  (forall msg, fst (findMongoNftFromId nftId e s) = Throw msg ->
               msg = "Couldn't get mongo NFT" /\ next_call_fails e s).
Proof.
  unfold next_call_fails, findMongoNftFromId, try_catch, bind, Nft_findOne_populate,
    external, reading.
  change (find _ (nfts (log _ s))) with (local_record s nftId).
  destruct (fault e (length (trace s))) as [m|]; simpl.
  - split; [| split].
    + intros H. destruct H. discriminate.
    + reflexivity.
    + intros msg [= <-]. split; [reflexivity | discriminate].
  - split; [| split].
    + intros _. split.
      * intros d Hd. rewrite Hd. split.
        -- apply find_some in Hd as [_ Hd]. now apply String.eqb_eq.
        -- eexists. split; [reflexivity | apply populate_categories_resolved].
      * intros Hd. now rewrite Hd.
    + intros H. now destruct H.
    + intros msg. destruct (local_record s nftId); discriminate.
Qed.

(** Chain id "42" has a local record with the category "art", "8" has none;
    the record [createNFT] leaves for the unknown code "bogus" comes back
    with its [null] entry. *)
Lemma findMongoNftFromId_absent_is_null_witness :
  let e := sample_env 0 in
  let s7 := after_createNFT (INftDto.mk "7" ["bogus"]) in
  ~ next_call_fails e sample_store /\
  fst (findMongoNftFromId "42" e sample_store) =
    Ok (Some (PopulatedNft.mk "42" [Some art])) /\
  fst (findMongoNftFromId "8" e sample_store) = Ok None /\
  (exists r, fst (findMongoNftFromId "7" e s7) = Ok (Some r) /\
             PopulatedNft.categories r = [None]).
Proof.
  intros e s7.
  assert (Hok : ~ next_call_fails e sample_store) by (intros H; now apply H).
  assert (Hok7 : ~ next_call_fails e s7) by (intros H; now apply H).
  split; [exact Hok |]. split; [| split].
  - destruct (findMongoNftFromId_absent_is_null e sample_store "42") as [H _].
    destruct (H Hok) as [Hsome _].
    destruct (Hsome (IMongoNft.mk "42" (Some [Some "c-art"])) eq_refl)
      as (_ & r & Hr & _ & Hres).
    simpl in Hres. destruct Hres as [_ Hids].
    destruct Hids as (cs & Hcs & _ & Hid); [discriminate |].
    rewrite Hr. vm_compute in Hr. injection Hr as <-. reflexivity.
  - destruct (findMongoNftFromId_absent_is_null e sample_store "8") as [H _].
    destruct (H Hok) as [_ Hnone]. exact (Hnone eq_refl).
  - destruct (findMongoNftFromId_absent_is_null e s7 "7") as [H _].
    destruct (H Hok7) as [Hsome _].
    destruct (Hsome (IMongoNft.mk "7" (Some [None])) eq_refl)
      as (_ & r & Hr & _ & Hres).
    simpl in Hres. destruct Hres as [Hnull _]. specialize (Hnull eq_refl).
    exists r. split; [exact Hr |].
    destruct (PopulatedNft.categories r) as [|[c|] [|x l]]; try discriminate.
    reflexivity.
Defined.

(** ** Claim C9 *)

(** A body wrapped in [try { ... } catch (err) { throw new Error(msg) }]
    fails with [msg] and nothing else. *)
Lemma try_rethrow_message {A} (m : M A) msg e s msg' :
  thrown (fst (try_catch m (fun _ => throw msg) e s)) = Some msg' -> msg' = msg.
Proof.
  unfold try_catch, throw. destruct (m e s) as [[a | m0] s1]; simpl.
  - discriminate.
  - now intros [= <-].
Qed.

Lemma try_rethrow_failure {A} (m : M A) msg e s msg0 :
  fst (m e s) = Throw msg0 ->
  fst (try_catch m (fun _ => throw msg) e s) = Throw msg.
Proof.
  unfold try_catch, throw. destruct (m e s) as [[a | m0] s1]; simpl.
  - discriminate.
  - reflexivity.
Qed.

Lemma populateNFT_trace e s NFT :
  snd (populateNFT NFT e s) = add_calls [call_Nft_findOne (INFT.id NFT)] s.
Proof.
  unfold populateNFT, bind, Nft_findOne_populate, external, reading.
  destruct (fault e (length (trace s))); [reflexivity |].
  destruct (option_map _ _); reflexivity.
Qed.

Lemma populateNFT_fault e s NFT :
  fault e (length (trace s)) <> None -> exists msg, fst (populateNFT NFT e s) = Throw msg.
Proof.
  unfold populateNFT, bind, Nft_findOne_populate, external, reading.
  destruct (fault e (length (trace s))) as [m|]; [exists m; reflexivity | congruence].
Qed.

(** One rejected enrichment rejects the batch. *)
Lemma Promise_all_populate_fault e l : forall s i,
  (i < length l)%nat ->
  fault e (length (trace s) + i) <> None ->
  exists msg, fst (Promise_all (map populateNFT l) e s) = Throw msg.
Proof.
  induction l as [|n l IH]; intros s i Hi Hf; simpl in Hi; [lia |].
  simpl. unfold both.
  pose proof (populateNFT_trace e s n) as Ht.
  destruct (populateNFT n e s) as [ra s1] eqn:Hp. simpl in Ht. subst s1.
  destruct i as [|i].
  - rewrite Nat.add_0_r in Hf.
    destruct (populateNFT_fault e s n Hf) as [m Hm]. rewrite Hp in Hm. simpl in Hm.
    subst ra. destruct (Promise_all _ e _) as [rb s2]. exists m. reflexivity.
  - destruct (IH (add_calls [call_Nft_findOne (INFT.id n)] s) i) as [m Hm].
    + lia.
    + simpl. rewrite length_app. simpl.
      replace (length (trace s) + 1 + i)%nat with (length (trace s) + S i)%nat by lia.
      exact Hf.
    + destruct (Promise_all _ e _) as [rb s2]. simpl in Hm. subst rb.
      destruct ra as [a | m0]; [exists m | exists m0]; reflexivity.
Qed.

(** *** Every rejected call rejects the operation *)

Lemma propagates_pure {A} (m : M A) :
  (forall e s, snd (m e s) = s) -> propagates m.
Proof.
  intros H e s. exists []. rewrite H, app_nil_r. split; [reflexivity |].
  intros (i & Hi & _). simpl in Hi. lia.
Qed.

Lemma propagates_ret {A} (a : A) : propagates (ret a).
Proof. now apply propagates_pure. Qed.

Lemma propagates_throw {A} msg : propagates (@throw A msg).
Proof. now apply propagates_pure. Qed.

Lemma propagates_read {A} (f : Env -> A) : propagates (read f).
Proof. now apply propagates_pure. Qed.

Lemma propagates_property {A} (o : option A) : propagates (property o).
Proof. destruct o; [apply propagates_ret | apply propagates_throw]. Qed.

Lemma propagates_external {A} c (k : Env -> Store -> A * Store) :
  (forall e s, trace (snd (k e s)) = trace s) -> propagates (external c k).
Proof.
  intros Hk e s. exists [c]. unfold external.
  destruct (fault e (length (trace s))) as [m|] eqn:Hf.
  - split; [reflexivity |]. intros _. now exists m.
  - specialize (Hk e (log c s)). destruct (k e (log c s)) as [a s2].
    split; [exact Hk |].
    intros (i & Hi & Hfi). simpl in Hi. assert (i = 0)%nat by lia. subst i.
    rewrite Nat.add_0_r in Hfi. congruence.
Qed.

Lemma propagates_bind {A B} (m : M A) (k : A -> M B) :
  propagates m -> (forall a, propagates (k a)) -> propagates (bind m k).
Proof.
  intros Hm Hk e s. destruct (Hm e s) as (cs1 & Ht1 & Hf1). unfold bind.
  destruct (m e s) as [[a | msg] s1]; simpl in Ht1, Hf1.
  - destruct (Hk a e s1) as (cs2 & Ht2 & Hf2). exists (cs1 ++ cs2).
    split; [now rewrite Ht2, Ht1, app_assoc |].
    intros (i & Hi & Hfi). rewrite length_app in Hi.
    destruct (Nat.lt_ge_cases i (length cs1)) as [Hlt | Hge].
    + destruct Hf1 as [m0 Hm0]; [now exists i | discriminate].
    + apply Hf2. exists (i - length cs1)%nat. split; [lia |].
      rewrite Ht1, length_app.
      now replace (length (trace s) + length cs1 + (i - length cs1))%nat
        with (length (trace s) + i)%nat by lia.
  - exists cs1. split; [exact Ht1 |]. intros _. now exists msg.
Qed.

(** A [catch] that throws again lets no rejection through as a value. *)
Lemma propagates_try_rethrow {A} (m : M A) msg :
  propagates m -> propagates (try_catch m (fun _ => throw msg)).
Proof.
  intros Hm e s. destruct (Hm e s) as (cs & Ht & Hf). unfold try_catch, throw.
  destruct (m e s) as [[a | m0] s1]; simpl in Ht, Hf; exists cs; (split; [exact Ht |]).
  - intros H. destruct (Hf H) as [m1 Hm1]. discriminate.
  - intros _. now exists msg.
Qed.

Lemma propagates_both {A B} (ma : M A) (mb : M B) :
  propagates ma -> propagates mb -> propagates (both ma mb).
Proof.
  intros Ha Hb e s. destruct (Ha e s) as (cs1 & Ht1 & Hf1). unfold both.
  destruct (ma e s) as [ra s1]; simpl in Ht1, Hf1.
  destruct (Hb e s1) as (cs2 & Ht2 & Hf2).
  destruct (mb e s1) as [rb s2]; simpl in Ht2, Hf2.
  exists (cs1 ++ cs2). split; [simpl; now rewrite Ht2, Ht1, app_assoc |].
  intros (i & Hi & Hfi). rewrite length_app in Hi. simpl.
  destruct (Nat.lt_ge_cases i (length cs1)) as [Hlt | Hge].
  - destruct Hf1 as [m0 ->]; [now exists i |]. now exists m0.
  - destruct Hf2 as [m0 ->].
    + exists (i - length cs1)%nat. split; [lia |].
      rewrite Ht1, length_app.
      now replace (length (trace s) + length cs1 + (i - length cs1))%nat
        with (length (trace s) + i)%nat by lia.
    + destruct ra as [a | m1]; [now exists m0 | now exists m1].
Qed.

Lemma propagates_Promise_all_map {X A} (f : X -> M A) (l : list X) :
  (forall x, propagates (f x)) -> propagates (Promise_all (map f l)).
Proof.
  intros Hf. induction l as [|x l IH]; [apply propagates_ret |].
  intros e s. simpl.
  destruct (propagates_both (f x) (Promise_all (map f l)) (Hf x) IH e s)
    as (cs & Ht & Hthrow).
  exists cs. destruct (both (f x) (Promise_all (map f l)) e s) as [[[a r] | msg] s1];
    simpl in *; (split; [exact Ht |]).
  - intros H. destruct (Hthrow H) as [m Hm]. discriminate.
  - intros _. now exists msg.
Qed.

(** Proves that a method body built from the combinators propagates the
    rejections of its calls. *)
Ltac propagates_calls :=
  repeat first
    [ first [ apply propagates_try_rethrow | apply propagates_bind
            | apply propagates_both | apply propagates_Promise_all_map
            | apply propagates_ret | apply propagates_throw
            | apply propagates_read | apply propagates_property
            | apply propagates_external; intros; reflexivity ];
      intros
    | match goal with
      | |- propagates (match ?x with _ => _ end) => destruct x
      | |- propagates (if ?x then _ else _) => destruct x
      end ].

(** Every method of the service propagates the rejections of its calls. *)
Lemma methods_propagate :
  (forall page limit listed, propagates (getAllNFTs page limit listed)) /\
  (forall id incViews w ip, propagates (getNFT id incViews w ip)) /\
  (forall o page limit listed, propagates (getNFTsFromOwner o page limit listed)) /\
  (forall c page limit listed, propagates (getNFTsFromCreator c page limit listed)) /\
  (forall w, propagates (getStatNFTsUser w)) /\
  (forall ids page limit listed, propagates (getNFTsFromIds ids page limit listed)) /\
  (forall ids page limit listed, propagates (getNFTsFromIdsDistinct ids page limit listed)) /\
  (forall ids page limit listed, propagates (getNFTsNotInIds ids page limit listed)) /\
  (forall codes page limit listed, propagates (getNFTsFromCategories codes page limit listed)) /\
  (forall dto, propagates (createNFT dto)) /\
  (forall id, propagates (findMongoNftFromId id)) /\
  (forall NFT page limit, propagates (getNFTsForSerie NFT page limit)).
Proof.
  repeat split; intros;
    unfold getAllNFTs, getNFT, getNFTsFromOwner, getNFTsFromCreator, getStatNFTsUser,
      getNFTsFromIds, getNFTsFromIdsDistinct, getNFTsNotInIds, getNFTsFromCategories,
      createNFT, findMongoNftFromId, getNFTsForSerie, populate_distinct,
      populate_entities, populateNFT, category_id_of_code, getCategoryByCode,
      Nft_findOne_populate, Nft_find, Nft_save, User_findOne, Follow_find,
      NftView_find, NftView_save, Date_now, request;
    propagates_calls.
Qed.

(** A method that propagates the rejections of its calls throws as soon as
    one of the calls it made rejected. *)
Lemma rejected_call_throws {A} (m : M A) e s :
  propagates m ->
  (exists n, (length (trace s) <= n < length (trace (snd (m e s))))%nat /\
             fault e n <> None) ->
  exists msg, thrown (fst (m e s)) = Some msg.
Proof.
  intros Hm (n & Hn & Hf). destruct (Hm e s) as (cs & Ht & Hthrow).
  rewrite Ht, length_app in Hn.
  destruct Hthrow as [msg Hmsg].
  - exists (n - length (trace s))%nat. split; [lia |].
    now replace (length (trace s) + (n - length (trace s)))%nat with n by lia.
  - exists msg. now rewrite Hmsg.
Qed.

(** C9.  Every public operation fails, when it fails, with the one coarse
    message of its [catch] block, whatever the cause was; the messages form
    a fixed list.  And every internal failure does make the operation fail
    with that message: the rejection of any external call the operation
    makes -- a request to the indexer, a call to the local store, a lookup
    of an enrichment -- and the absence of the record or the user asked for,
    or of the field the operation reads in the indexer's answer.  In
    particular [getAllNFTs] fails with "Couldn't get NFTs" when the indexer
    call fails, and with the same error when the indexer answers and one
    enrichment of the batch rejects. *)
Theorem errors_are_coarse e s :
  (forall o msg, failure o e s = Some msg ->
                 msg = coarse_message o /\ In msg coarse_messages) /\
  (forall o, some_call_rejected o e s -> failure o e s = Some (coarse_message o)) /\
  (forall o, nothing_to_return o e s -> failure o e s = Some (coarse_message o)) /\
  (forall page limit listed,
     next_call_fails e s ->
     fst (getAllNFTs page limit listed e s) = Throw "Couldn't get NFTs") /\
  (forall page limit listed nl,
     ~ next_call_fails e s ->
     distinctSerieNfts (indexer e (QueriesBuilder.allNFTs limit page listed)) = Some nl ->
     enrichment_rejects e s (length (nodes nl)) ->
     fst (getAllNFTs page limit listed e s) = Throw "Couldn't get NFTs").
Proof.
  assert (Hcoarse : forall o msg, failure o e s = Some msg -> msg = coarse_message o)
    by (intros o msg H; destruct o; simpl in H; apply try_rethrow_message in H; exact H).
  split; [| split; [| split; [| split]]].
  - intros o msg H. split; [now apply Hcoarse |].
    rewrite (Hcoarse o msg H). destruct o; simpl; tauto.
  - intros o Hrej.
    assert (Hthrows : exists msg, failure o e s = Some msg).
    { destruct methods_propagate
        as (P1 & P2 & P3 & P4 & P5 & P6 & P7 & P8 & P9 & P10 & P11 & P12).
      destruct o; cbn [failure]; apply rejected_call_throws; trivial; exact Hrej. }
    destruct Hthrows as [msg Hmsg]. now rewrite Hmsg, (Hcoarse o msg Hmsg).
  - intros o Hnone.
    destruct o; cbn [nothing_to_return] in Hnone; try contradiction;
      cbn [failure coarse_message];
      unfold getAllNFTs, getNFT, getNFTsFromOwner, getNFTsFromCreator, getStatNFTsUser,
        getNFTsFromIds, getNFTsFromIdsDistinct, getNFTsNotInIds, populate_distinct,
        populate_entities, User_findOne, try_catch, bind, request, external, reading;
      (destruct (fault e (length (trace s))); [reflexivity |]);
      try (rewrite Hnone; reflexivity).
    + destruct (nftEntities (indexer e (QueriesBuilder.NFTfromId id))) as [nl|] eqn:Hnl;
        [| reflexivity].
      simpl property. unfold ret at 1. now rewrite (Hnone nl eq_refl).
    + change (find _ (users (log _ s))) with (user_of_wallet s userWalletId).
      now rewrite Hnone.
  - intros page limit listed Hf. unfold next_call_fails in Hf.
    unfold getAllNFTs.
    destruct (fault e (length (trace s))) as [m|] eqn:Hm; [| congruence].
    apply try_rethrow_failure with (msg0 := m).
    unfold bind, request. now rewrite (external_fault _ _ _ _ m).
  - intros page limit listed nl Hok Hidx (i & Hi & Hf). unfold next_call_fails in Hok.
    destruct (fault e (length (trace s))) as [m|] eqn:Hm; [now destruct Hok |].
    destruct (Promise_all_populate_fault e (nodes nl)
                (add_calls [call_request (QueriesBuilder.allNFTs limit page listed)] s) i Hi)
      as [m Hthrow].
    { simpl. rewrite length_app. exact Hf. }
    unfold getAllNFTs. apply try_rethrow_failure with (msg0 := m).
    unfold populate_distinct, bind, request, external, reading. rewrite Hm, Hidx.
    simpl property. unfold ret at 1.
    change (log ?c s) with (add_calls [c] s).
    destruct (Promise_all _ e _) as [rb s2]. simpl in Hthrow. now subst rb.
Qed.

(** The indexer is down; the first enrichment of a batch is; the store is
    down when [getNFTsFromOwner] looks "42" up; no NFT has the id "1000". *)
Lemma errors_are_coarse_witness :
  In "Couldn't get NFT" coarse_messages /\
  fst (getAllNFTs None None None (failing_at 0 "ECONNREFUSED" 0) sample_store) =
  Throw "Couldn't get NFTs" /\
  fst (getAllNFTs None None None (failing_at 1 "MongoNetworkError" 0) sample_store) =
  Throw "Couldn't get NFTs" /\
  fst (getNFTsFromOwner "alice" None None None (failing_at 1 "MongoNetworkError" 0)
         sample_store) = Throw "Couldn't get user's owned NFTs" /\
  fst (getNFT "1000" false None None (sample_env 0) sample_store) =
  Throw "Couldn't get NFT".
Proof.
  split; [| split; [| split; [| split]]].
  - destruct (errors_are_coarse (failing_at 0 "ECONNREFUSED" 0) sample_store)
      as (Hmsg & _).
    exact (proj2 (Hmsg (op_getNFT "42" true None None) "Couldn't get NFT" eq_refl)).
  - destruct (errors_are_coarse (failing_at 0 "ECONNREFUSED" 0) sample_store)
      as (_ & _ & _ & Hidx & _).
    apply Hidx. unfold next_call_fails. simpl. discriminate.
  - destruct (errors_are_coarse (failing_at 1 "MongoNetworkError" 0) sample_store)
      as (_ & _ & _ & _ & Henr).
    apply (Henr None None None
             {| nodes := distinct_series [] sample_chain; totalCount := 2 |}).
    + unfold next_call_fails. simpl. intros H. now apply H.
    + reflexivity.
    + exists 0%nat. split; [simpl; lia | simpl; discriminate].
  - destruct (errors_are_coarse (failing_at 1 "MongoNetworkError" 0) sample_store)
      as (_ & Hrej & _).
    specialize (Hrej (op_getNFTsFromOwner "alice" None None None)).
    cbn [failure coarse_message] in Hrej.
    destruct (fst (getNFTsFromOwner "alice" None None None
                     (failing_at 1 "MongoNetworkError" 0) sample_store)) as [r | msg] eqn:Hrun.
    + exfalso. assert (H : @None string = Some "Couldn't get user's owned NFTs");
        [| discriminate].
      apply Hrej. exists 1%nat. split; [vm_compute; lia | simpl; discriminate].
    + f_equal. assert (H : Some msg = Some "Couldn't get user's owned NFTs");
        [| now injection H].
      apply Hrej. exists 1%nat. split; [vm_compute; lia | simpl; discriminate].
  - destruct (errors_are_coarse (sample_env 0) sample_store) as (_ & _ & Hnone & _).
    specialize (Hnone (op_getNFT "1000" false None None)).
    cbn [failure coarse_message nothing_to_return] in Hnone.
    destruct (fst (getNFT "1000" false None None (sample_env 0) sample_store))
      as [r | msg] eqn:Hrun.
    + exfalso. assert (H : @None string = Some "Couldn't get NFT"); [| discriminate].
      apply Hnone. intros nl [= <-]. reflexivity.
    + f_equal. assert (H : Some msg = Some "Couldn't get NFT"); [| now injection H].
      apply Hnone. intros nl [= <-]. reflexivity.
Defined.

(** ** The enrichment merge, and the list methods that use it *)

Lemma mergeNFT_idempotent s NFT : mergeNFT s (mergeNFT s NFT) = mergeNFT s NFT.
Proof.
  unfold mergeNFT at 1. rewrite mergeNFT_id. unfold mergeNFT.
  destruct (find _ (nfts s)); reflexivity.
Qed.

Lemma populate_distinct_reliable e s r nl :
  reliable e ->
  distinctSerieNfts r = Some nl ->
  populate_distinct r e s =
  (Ok (enriched_distinct s r nl), add_calls (enrichment_calls (nodes nl)) s).
Proof.
  intros Hrel Hnl. unfold populate_distinct, bind. rewrite Hnl. simpl property.
  unfold ret at 1. now rewrite Promise_all_populate_reliable.
Qed.

(** Enriching an enriched envelope changes nothing. *)
Lemma enriched_distinct_twice s s' r nl :
  nfts s' = nfts s -> categoryDocs s' = categoryDocs s ->
  enriched_distinct s' (enriched_distinct s r nl) (with_nodes (map (mergeNFT s) (nodes nl)) nl)
  = enriched_distinct s r nl.
Proof.
  intros Hn Hc. unfold enriched_distinct, set_distinct_nodes, with_nodes. simpl.
  rewrite map_map.
  rewrite (map_ext (fun x => mergeNFT s' (mergeNFT s x)) (mergeNFT s)); [reflexivity |].
  intros x. transitivity (mergeNFT s (mergeNFT s x)); [| apply mergeNFT_idempotent].
  unfold mergeNFT. now rewrite Hn, Hc.
Qed.

Lemma getNFTsNotInIds_reliable e s ids page limit listed nl :
  reliable e ->
  let q := QueriesBuilder.NFTsNotInIds ids limit page listed in
  distinctSerieNfts (indexer e q) = Some nl ->
  getNFTsNotInIds ids page limit listed e s =
  (Ok (enriched_distinct s (indexer e q) nl),
   add_calls (call_request q :: enrichment_calls (nodes nl)) s).
Proof.
  intros Hrel q Hnl. unfold getNFTsNotInIds, try_catch, bind. fold q.
  rewrite request_reliable by assumption.
  rewrite (populate_distinct_reliable _ _ _ nl) by assumption.
  now rewrite add_calls_add_calls.
Qed.

Lemma getNFTsFromIdsDistinct_reliable e s ids page limit listed nl :
  reliable e ->
  let q := QueriesBuilder.NFTsFromIds ids limit page listed in
  distinctSerieNfts (indexer e q) = Some nl ->
  getNFTsFromIdsDistinct ids page limit listed e s =
  (Ok (enriched_distinct s (indexer e q) nl),
   add_calls (call_request q :: enrichment_calls (nodes nl)) s).
Proof.
  intros Hrel q Hnl. unfold getNFTsFromIdsDistinct, try_catch, bind. fold q.
  rewrite request_reliable by assumption.
  rewrite (populate_distinct_reliable _ _ _ nl) by assumption.
  now rewrite add_calls_add_calls.
Qed.

Lemma Nft_find_reliable e s q :
  reliable e ->
  Nft_find q e s = (Ok (filter (nft_matches q) (nfts s)), add_calls [call_Nft_find q] s).
Proof. intros H. unfold Nft_find. now rewrite external_reliable. Qed.

(** What [getNFTsFromCategories] does with [codes] null when every
    collaborator answers. *)
Lemma getNFTsFromCategories_null_reliable e s page limit listed nl :
  reliable e ->
  let mq := categories_exists_nin [BEmptyArray; BNull] in
  let q := QueriesBuilder.NFTsNotInIds (collected_ids s mq) limit page listed in
  distinctSerieNfts (indexer e q) = Some nl ->
  getNFTsFromCategories None page limit listed e s =
  (Ok (enriched_distinct s (indexer e q) nl),
   add_calls (call_Nft_find mq :: call_request q :: enrichment_calls (nodes nl)
              ++ enrichment_calls (map (mergeNFT s) (nodes nl))) s).
Proof.
  intros Hrel mq q Hnl. unfold getNFTsFromCategories, try_catch, bind. fold mq.
  rewrite Nft_find_reliable by assumption.
  change (map IMongoNft.chainId (filter (nft_matches mq) (nfts s)))
    with (collected_ids s mq). fold q.
  rewrite (getNFTsNotInIds_reliable e _ _ page limit listed nl Hrel Hnl).
  change (enriched_distinct (add_calls ?cs s) ?r ?n) with (enriched_distinct s r n).
  rewrite (populate_distinct_reliable _ _ _ (with_nodes (map (mergeNFT s) (nodes nl)) nl))
    by (trivial; reflexivity).
  rewrite !add_calls_add_calls. fold q.
  rewrite enriched_distinct_twice by reflexivity.
  reflexivity.
Qed.

Lemma category_id_of_code_reliable e s x :
  reliable e ->
  category_id_of_code x e s =
  (Ok (option_map Category._id (category_of_code s x)),
   add_calls [call_Category_findOne x] s).
Proof.
  intros H. unfold category_id_of_code, bind.
  rewrite getCategoryByCode_reliable by assumption.
  destruct (category_of_code s x); reflexivity.
Qed.

(** What [getNFTsFromCategories] does with a list of codes when every
    collaborator answers. *)
Lemma getNFTsFromCategories_codes_reliable e s codes page limit listed nl :
  reliable e ->
  let mq := categories_in (in_list_of_codes s codes) in
  let q := QueriesBuilder.NFTsFromIds (collected_ids s mq) limit page listed in
  distinctSerieNfts (indexer e q) = Some nl ->
  getNFTsFromCategories (Some codes) page limit listed e s =
  (Ok (enriched_distinct s (indexer e q) nl),
   add_calls (map call_Category_findOne codes ++
              call_Nft_find mq :: call_request q :: enrichment_calls (nodes nl)
              ++ enrichment_calls (map (mergeNFT s) (nodes nl))) s).
Proof.
  intros Hrel mq q Hnl. unfold getNFTsFromCategories, try_catch, bind.
  rewrite (Promise_all_reading e category_id_of_code
             (fun s x => option_map Category._id (category_of_code s x))
             call_Category_findOne)
    by (intros; try reflexivity; now apply category_id_of_code_reliable).
  fold (in_list_of_codes s codes). fold mq.
  rewrite Nft_find_reliable by assumption.
  change (map IMongoNft.chainId (filter (nft_matches mq) (nfts _)))
    with (collected_ids s mq). fold q.
  rewrite (getNFTsFromIdsDistinct_reliable e _ _ page limit listed nl Hrel Hnl).
  change (enriched_distinct (add_calls ?cs (add_calls ?ds s)) ?r ?n)
    with (enriched_distinct s r n).
  rewrite (populate_distinct_reliable _ _ _ (with_nodes (map (mergeNFT s) (nodes nl)) nl))
    by (trivial; reflexivity).
  rewrite !add_calls_add_calls. fold q.
  rewrite enriched_distinct_twice by reflexivity.
  simpl. rewrite <- app_assoc. reflexivity.
Qed.

(** ** Claim C6 *)

(** C6.  While the store answers, the enrichment merge is idempotent
    (enriching an enriched record returns it unchanged), and each record of
    a batch is merged on its own: the batch returns the records merged one
    by one, so that reordering the batch reorders the results and nothing
    else.  In particular [getNFTsFromCategories], which enriches the result
    of a nested call that has enriched it already, returns what the nested
    call returns: the nodes of the indexer merged once. *)
Theorem enrichment_merge_idempotent e s :
  reliable e ->
  (forall NFT,
     fst (bind (populateNFT NFT) populateNFT e s) = Ok (mergeNFT s NFT) /\
     fst (populateNFT NFT e s) = Ok (mergeNFT s NFT)) /\
  (forall l l',
     Permutation l l' ->
     fst (Promise_all (map populateNFT l) e s) = Ok (map (mergeNFT s) l) /\
     fst (Promise_all (map populateNFT l') e s) = Ok (map (mergeNFT s) l') /\
     Permutation (map (mergeNFT s) l) (map (mergeNFT s) l')) /\
  (forall page limit listed nl,
     let ids := collected_ids s (categories_exists_nin [BEmptyArray; BNull]) in
     let q := QueriesBuilder.NFTsNotInIds ids limit page listed in
     distinctSerieNfts (indexer e q) = Some nl ->
     fst (getNFTsFromCategories None page limit listed e s) =
       Ok (enriched_distinct s (indexer e q) nl) /\
     fst (getNFTsNotInIds ids page limit listed e s) =
       Ok (enriched_distinct s (indexer e q) nl)) /\
  (forall codes page limit listed nl,
     let ids := collected_ids s (categories_in (in_list_of_codes s codes)) in
     let q := QueriesBuilder.NFTsFromIds ids limit page listed in
     distinctSerieNfts (indexer e q) = Some nl ->
     fst (getNFTsFromCategories (Some codes) page limit listed e s) =
       Ok (enriched_distinct s (indexer e q) nl) /\
     fst (getNFTsFromIdsDistinct ids page limit listed e s) =
       Ok (enriched_distinct s (indexer e q) nl)).
Proof.
  intros Hrel. split; [| split; [| split]].
  - intros NFT. split.
    + unfold bind. rewrite !populateNFT_reliable by assumption.
      simpl. now rewrite mergeNFT_add_calls, mergeNFT_idempotent.
    + now rewrite populateNFT_reliable.
  - intros l l' Hperm. rewrite !Promise_all_populate_reliable by assumption.
    repeat split. now apply Permutation_map.
  - intros page limit listed nl ids q Hnl. split.
    + now rewrite (getNFTsFromCategories_null_reliable e s page limit listed nl Hrel Hnl).
    + now rewrite (getNFTsNotInIds_reliable e s ids page limit listed nl Hrel Hnl).
  - intros codes page limit listed nl ids q Hnl. split.
    + now rewrite (getNFTsFromCategories_codes_reliable e s codes page limit listed nl Hrel Hnl).
    + now rewrite (getNFTsFromIdsDistinct_reliable e s ids page limit listed nl Hrel Hnl).
Qed.

(** The NFTs of category "art" in the sample world: NFT "42", enriched
    once, from the outer call and from the nested one. *)
Lemma enrichment_merge_idempotent_witness :
  let e := sample_env 0 in
  let answer :=
    {| nftEntities :=
         Some {| nodes := [raw "42" "0" "alice" "bob" 1]; totalCount := 1 |};
       distinctSerieNfts :=
         Some {| nodes := [INFT.mk "42" "0" "alice" "bob" 1 [art] None];
                 totalCount := 1 |} |} in
  reliable e /\
  fst (getNFTsFromCategories (Some ["art"]) None None None e sample_store) = Ok answer /\
  fst (getNFTsFromIdsDistinct ["42"] None None None e sample_store) = Ok answer.
Proof.
  intros e answer. split; [apply sample_env_reliable |].
  destruct (enrichment_merge_idempotent e sample_store (sample_env_reliable 0))
    as (_ & _ & _ & Hcodes).
  exact (Hcodes ["art"] None None None
           {| nodes := [raw "42" "0" "alice" "bob" 1]; totalCount := 1 |} eq_refl).
Defined.

(** ** Claims C2 and C3: the filters of [getNFTsFromCategories] *)

Lemma bson_eqb_eq a b : bson_eqb a b = true <-> a = b.
Proof.
  destruct a, b; simpl; split; intros H; try discriminate; try reflexivity.
  - apply String.eqb_eq in H. now subst.
  - injection H as ->. apply String.eqb_refl.
Qed.

(** The filter sent when [codes] is null selects the records whose
    [categories] path exists, is not empty and holds no [null] entry. *)
Lemma uncategorized_filter_spec d :
  nft_matches (categories_exists_nin [BEmptyArray; BNull]) d = true <->
  exists l, IMongoNft.categories d = Some l /\ l <> [] /\ ~ In None l.
Proof.
  unfold nft_matches, categories_in_vals.
  destruct (IMongoNft.categories d) as [[|r l]|].
  - simpl. split; [discriminate | intros (l & [= <-] & H & _); now destruct H].
  - rewrite negb_true_iff. split.
    + intros H. exists (r :: l). split; [reflexivity | split; [discriminate |]].
      intros Hin. apply not_true_iff_false in H. apply H.
      apply existsb_exists. exists None. split; [exact Hin | reflexivity].
    + intros (l' & [= <-] & _ & Hnone). apply not_true_iff_false. intros H.
      apply existsb_exists in H as (x & Hx & Hm). apply Hnone.
      simpl in Hm. rewrite orb_false_r in Hm.
      destruct x; [destruct (bson_of_ref (Some o)) eqn:E; discriminate | exact Hx].
  - split; [discriminate | intros (l & [=] & _)].
Qed.

(** The [$in] filter selects the records one of whose entries is in the
    list -- a [null] entry when the list has a [null] slot -- and, when the
    list has a [null] slot, the records with no [categories] path. *)
Lemma in_list_filter_spec s codes d :
  nft_matches (categories_in (in_list_of_codes s codes)) d = true <->
  (IMongoNft.categories d = None /\ In BNull (in_list_of_codes s codes)) \/
  (exists l r, IMongoNft.categories d = Some l /\ In r l /\
               In (bson_of_ref r) (in_list_of_codes s codes)).
Proof.
  unfold nft_matches, categories_in_vals.
  destruct (IMongoNft.categories d) as [[|r0 l]|].
  - split.
    + intros H. apply existsb_exists in H as (x & Hx & Hm).
      apply bson_eqb_eq in Hm. subst x. unfold in_list_of_codes in Hx.
      apply in_map_iff in Hx as (r & Hr & _). destruct r; discriminate.
    + intros [[H _] | (l & r & [= <-] & [] & _)]. discriminate.
  - rewrite existsb_exists. split.
    + intros (r & Hr & Hm). right. exists (r0 :: l), r.
      split; [reflexivity | split; [exact Hr |]].
      apply existsb_exists in Hm as (x & Hx & Hm). apply bson_eqb_eq in Hm. now subst.
    + intros [[H _] | (l' & r & [= <-] & Hr & Hin)]; [discriminate |].
      exists r. split; [exact Hr |]. apply existsb_exists.
      exists (bson_of_ref r). split; [exact Hin | now apply bson_eqb_eq].
  - rewrite existsb_exists. split.
    + intros (x & Hx & Hm). apply bson_eqb_eq in Hm. subst x. left. now split.
    + intros [[_ H] | (l & r & [=] & _)]. exists BNull. now split.
Qed.

Lemma null_entry_dec (l : list (option ObjectId)) : In None l \/ ~ In None l.
Proof.
  induction l as [|[o|] l IH].
  - right. intros [].
  - destruct IH as [H | H]; [left; now right | right].
    intros [E | E]; [discriminate | now apply H].
  - left. now left.
Qed.

Lemma collected_ids_spec s q id :
  In id (collected_ids s q) <->
  exists d, In d (nfts s) /\ nft_matches q d = true /\ IMongoNft.chainId d = id.
Proof.
  unfold collected_ids. rewrite in_map_iff. split.
  - intros (d & Hid & Hd). apply filter_In in Hd as [Hd Hm]. now exists d.
  - intros (d & Hd & Hm & Hid). exists d. split; [exact Hid |].
    apply filter_In. now split.
Qed.

(** What does hold of [getNFTsFromCategories] with [codes] null, when the
    indexer honours the exclusion it is asked for: no local record of a
    returned NFT has a category list that is non-empty and free of [null]
    entries; and in a store with no [null] entry, every returned NFT comes
    back with an empty category set. *)
Lemma getNFTsFromCategories_null_sound e s page limit listed nl :
  reliable e ->
  let ids := collected_ids s (categories_exists_nin [BEmptyArray; BNull]) in
  let q := QueriesBuilder.NFTsNotInIds ids limit page listed in
  distinctSerieNfts (indexer e q) = Some nl ->
  (forall n, In n (nodes nl) -> ~ In (INFT.id n) ids) ->
  exists r nl',
    fst (getNFTsFromCategories None page limit listed e s) = Ok r /\
    distinctSerieNfts r = Some nl' /\
    (forall n d, In n (nodes nl') -> In d (nfts s) ->
       IMongoNft.chainId d = INFT.id n ->
       IMongoNft.categories d = None \/ IMongoNft.categories d = Some [] \/
       exists l, IMongoNft.categories d = Some l /\ In None l) /\
    ((forall d l, In d (nfts s) -> IMongoNft.categories d = Some l -> ~ In None l) ->
     forall n, In n (nodes nl') -> INFT.categories n = []).
Proof.
  intros Hrel ids q Hnl Hhon.
  rewrite (getNFTsFromCategories_null_reliable e s page limit listed nl Hrel Hnl).
  exists (enriched_distinct s (indexer e q) nl),
         (with_nodes (map (mergeNFT s) (nodes nl)) nl).
  split; [reflexivity | split; [reflexivity |]].
  assert (Hun : forall n0 d, In n0 (nodes nl) -> In d (nfts s) ->
                  IMongoNft.chainId d = INFT.id n0 ->
                  IMongoNft.categories d = None \/ IMongoNft.categories d = Some [] \/
                  exists l, IMongoNft.categories d = Some l /\ In None l).
  { intros n0 d Hn0 Hd Hid.
    assert (Hm : nft_matches (categories_exists_nin [BEmptyArray; BNull]) d <> true).
    { intros Hm. apply (Hhon n0 Hn0). apply collected_ids_spec. now exists d. }
    rewrite uncategorized_filter_spec in Hm.
    destruct (IMongoNft.categories d) as [[|r l]|]; auto.
    right. right. exists (r :: l). split; [reflexivity |].
    destruct (null_entry_dec (r :: l)) as [H | H]; [exact H |].
    destruct Hm. exists (r :: l). split; [reflexivity | split; [discriminate | exact H]]. }
  split.
  - intros n d Hn Hd Hid. simpl in Hn. apply in_map_iff in Hn as (n0 & <- & Hn0).
    rewrite mergeNFT_id in Hid. now apply (Hun n0 d).
  - intros Hclean n Hn. simpl in Hn. apply in_map_iff in Hn as (n0 & <- & Hn0).
    unfold mergeNFT. destruct (find _ (nfts s)) as [d|] eqn:Hfind; [| reflexivity].
    apply find_some in Hfind as [Hd Hid]. apply String.eqb_eq in Hid.
    destruct (Hun n0 d Hn0 Hd Hid) as [H | [H | (l & H & Hnull)]].
    + simpl. unfold populate_categories. now rewrite H.
    + simpl. unfold populate_categories. now rewrite H.
    + now destruct (Hclean d l Hd H).
Qed.

(** What does hold of [getNFTsFromCategories] with a list of codes, when
    the indexer returns records among the ids it is asked for: every
    returned NFT is the chain id of a local record the filter selects; and
    when every code resolves, that record is tagged with the category of one
    of the codes. *)
Lemma getNFTsFromCategories_codes_sound e s codes page limit listed nl :
  reliable e ->
  let ids := collected_ids s (categories_in (in_list_of_codes s codes)) in
  let q := QueriesBuilder.NFTsFromIds ids limit page listed in
  distinctSerieNfts (indexer e q) = Some nl ->
  (forall n, In n (nodes nl) -> In (INFT.id n) ids) ->
  exists r nl',
    fst (getNFTsFromCategories (Some codes) page limit listed e s) = Ok r /\
    distinctSerieNfts r = Some nl' /\
    (forall n, In n (nodes nl') ->
       exists d, In d (nfts s) /\ IMongoNft.chainId d = INFT.id n /\
                 nft_matches (categories_in (in_list_of_codes s codes)) d = true) /\
    ((forall x, In x codes -> category_of_code s x <> None) ->
     forall n, In n (nodes nl') ->
       exists d l x c, In d (nfts s) /\ IMongoNft.chainId d = INFT.id n /\
                       IMongoNft.categories d = Some l /\ In x codes /\
                       category_of_code s x = Some c /\ In (Some (Category._id c)) l).
Proof.
  intros Hrel ids q Hnl Hhon.
  rewrite (getNFTsFromCategories_codes_reliable e s codes page limit listed nl Hrel Hnl).
  exists (enriched_distinct s (indexer e q) nl),
         (with_nodes (map (mergeNFT s) (nodes nl)) nl).
  split; [reflexivity | split; [reflexivity |]].
  assert (Hsel : forall n, In n (map (mergeNFT s) (nodes nl)) ->
            exists d, In d (nfts s) /\ IMongoNft.chainId d = INFT.id n /\
              nft_matches (categories_in (in_list_of_codes s codes)) d = true).
  { intros n Hn. apply in_map_iff in Hn as (n0 & <- & Hn0). rewrite mergeNFT_id.
    apply Hhon, collected_ids_spec in Hn0 as (d & Hd & Hm & Hid). now exists d. }
  split; [exact Hsel |].
  intros Hres n Hn. destruct (Hsel n Hn) as (d & Hd & Hid & Hm).
  assert (Hslot : forall b, In b (in_list_of_codes s codes) ->
            exists x c, In x codes /\ category_of_code s x = Some c /\
                        b = BOid (Category._id c)).
  { intros b Hb. unfold in_list_of_codes in Hb. rewrite map_map in Hb.
    apply in_map_iff in Hb as (x & <- & Hx).
    destruct (category_of_code s x) as [c|] eqn:Hc; [| now destruct (Hres x Hx)].
    now exists x, c. }
  apply in_list_filter_spec in Hm as [[_ Hnull] | (l & r & Hl & Hr & Hin)].
  - destruct (Hslot _ Hnull) as (x & c & _ & _ & E). discriminate.
  - destruct (Hslot _ Hin) as (x & c & Hx & Hc & E).
    exists d, l, x, c. repeat split; trivial.
    destruct r as [o|]; [| discriminate]. injection E as ->. exact Hr.
Qed.

(** C2, at a failing input.  [createNFT] has stored NFT "7" with the single
    code "bogus", which no category has: its record holds one [null] entry.
    A request for the categories "music" and "bogus" then sends the store a
    list that keeps a [null] slot for "bogus" -- the code is not skipped --
    the slot selects the record of NFT "7", the indexer is asked for the id
    "7", and NFT "7" is returned, with no category at all. *)
Lemma getNFTsFromCategories_keeps_unresolved_slot :
  let s := after_createNFT (INftDto.mk "7" ["bogus"]) in
  let run := getNFTsFromCategories (Some ["music"; "bogus"]) None None None
               (sample_env 0) s in
  nfts s = [IMongoNft.mk "42" (Some [Some "c-art"]); IMongoNft.mk "7" (Some [None])] /\
  In (call_Nft_find (categories_in [BOid "c-music"; BNull])) (trace (snd run)) /\
  In (call_request (QueriesBuilder.NFTsFromIds ["7"] None None None)) (trace (snd run)) /\
  exists r, fst run = Ok r /\
            option_map nodes (distinctSerieNfts r) =
            Some [INFT.mk "7" "s1" "alice" "alice" 0 [] None].
Proof.
  cbv zeta. split; [reflexivity |]. split; [| split].
  - vm_compute. tauto.
  - vm_compute. tauto.
  - eexists. split; vm_compute; reflexivity.
Qed.

(** C3, at a failing input.  [createNFT] has stored NFT "7" with the codes
    "art" and "bogus": its record holds the category "art" and a [null]
    entry.  A request for the NFTs without categories collects the id "42"
    only -- the filter leaves out the record of NFT "7" because of its
    [null] entry, though its category set is not empty -- the indexer is
    asked for the records not in ["42"], and NFT "7" is returned, with its
    category "art". *)
Lemma getNFTsFromCategories_null_returns_categorized :
  let s := after_createNFT (INftDto.mk "7" ["art"; "bogus"]) in
  let run := getNFTsFromCategories None None None None (sample_env 0) s in
  nfts s = [IMongoNft.mk "42" (Some [Some "c-art"]);
            IMongoNft.mk "7" (Some [Some "c-art"; None])] /\
  collected_ids s (categories_exists_nin [BEmptyArray; BNull]) = ["42"] /\
  In (call_request (QueriesBuilder.NFTsNotInIds ["42"] None None None)) (trace (snd run)) /\
  exists r, fst run = Ok r /\
            option_map nodes (distinctSerieNfts r) =
            Some [INFT.mk "7" "s1" "alice" "alice" 0 [art] None].
Proof.
  cbv zeta. split; [reflexivity |]. split; [reflexivity |]. split.
  - vm_compute. tauto.
  - eexists. split; vm_compute; reflexivity.
Qed.

(* ===================================================================== *)
(** ** Further properties of the service *)
(* ===================================================================== *)

(** *** The list methods *)

(** X1.  [getNFTsForSerie] makes one external call, the request for the
    serie of the given record, and never reads or writes the local store:
    it returns the indexer's answer as it is, with no enrichment, and throws
    "Couldn't get NFTs for this serie" exactly when the request fails. *)
Theorem getNFTsForSerie_passthrough e s NFT page limit :
  let q := QueriesBuilder.NFTsForSerie (INFT.serieId NFT) limit page in
  fst (getNFTsForSerie NFT page limit e s) =
    match fault e (length (trace s)) with
    | None => Ok (indexer e q)
    | Some _ => Throw "Couldn't get NFTs for this serie"
    end /\
  snd (getNFTsForSerie NFT page limit e s) = add_calls [call_request q] s.
Proof.
  cbv zeta. unfold getNFTsForSerie, try_catch, bind, request, external, reading.
  destruct (fault e (length (trace s))); split; reflexivity.
Qed.

(** [Promise.all] over calls that each make one external call: every call
    is made, and the outcome is the first rejection of the schedule, or the
    values. *)
Lemma Promise_all_one_call {X A} e (f : X -> M A) (h : Store -> X -> A)
    (c : X -> ExtCall) (l : list X) :
  (forall x s, f x e s =
               (match fault e (length (trace s)) with
                | Some msg => Throw msg
                | None => Ok (h s x)
                end, add_calls [c x] s)) ->
  (forall cs s x, h (add_calls cs s) x = h s x) ->
  forall s,
    Promise_all (map f l) e s =
    (match first_fault e (length (trace s)) (length l) with
     | Some msg => Throw msg
     | None => Ok (map (h s) l)
     end, add_calls (map c l) s).
Proof.
  intros Hf Hh. induction l as [|x l IH]; intros s; simpl.
  - unfold ret. now rewrite add_calls_nil.
  - unfold both. rewrite Hf, IH, add_calls_add_calls.
    rewrite (map_ext (h (add_calls [c x] s)) (h s)) by (intros; apply Hh).
    replace (length (trace (add_calls [c x] s))) with (S (length (trace s)))
      by (simpl; rewrite length_app; simpl; lia).
    destruct (fault e (length (trace s))); [reflexivity |].
    destruct (first_fault e (S (length (trace s))) (length l)); reflexivity.
Qed.

Lemma populateNFT_one_call e s NFT :
  populateNFT NFT e s =
  (match fault e (length (trace s)) with
   | Some msg => Throw msg
   | None => Ok (mergeNFT s NFT)
   end, add_calls [call_Nft_findOne (INFT.id NFT)] s).
Proof.
  unfold populateNFT, bind, Nft_findOne_populate, external, reading, mergeNFT.
  destruct (fault e (length (trace s))); [reflexivity |].
  simpl. destruct (find _ (nfts s)); reflexivity.
Qed.

Lemma getCategoryByCode_one_call e s x :
  getCategoryByCode x e s =
  (match fault e (length (trace s)) with
   | Some msg => Throw msg
   | None => Ok (category_of_code s x)
   end, add_calls [call_Category_findOne x] s).
Proof.
  unfold getCategoryByCode, external, reading.
  destruct (fault e (length (trace s))); reflexivity.
Qed.

Lemma first_fault_reliable e n k : reliable e -> first_fault e n k = None.
Proof.
  intros H. revert n. induction k as [|k IH]; intros n; simpl; [reflexivity |].
  now rewrite H.
Qed.

Lemma same_but_categories_merge s a : same_but_categories a (mergeNFT s a).
Proof.
  unfold same_but_categories, mergeNFT.
  destruct (find _ (nfts s)); repeat split; reflexivity.
Qed.

Lemma merged_nodes s l :
  Forall2 (fun a b => b = mergeNFT s a /\ same_but_categories a b)
          l (map (mergeNFT s) l).
Proof.
  induction l as [|a l IH]; simpl; constructor; trivial.
  split; [reflexivity | apply same_but_categories_merge].
Qed.

Lemma populate_entities_reliable e s r nl :
  reliable e ->
  nftEntities r = Some nl ->
  populate_entities r e s =
  (Ok (enriched_entities s r nl), add_calls (enrichment_calls (nodes nl)) s).
Proof.
  intros Hrel Hnl. unfold populate_entities, bind. rewrite Hnl. simpl property.
  unfold ret at 1. now rewrite Promise_all_populate_reliable.
Qed.

(** The body the list methods share, after their request. *)
Lemma populate_distinct_one_call e s r nl :
  distinctSerieNfts r = Some nl ->
  populate_distinct r e s =
  (match first_fault e (length (trace s)) (length (nodes nl)) with
   | Some msg => Throw msg
   | None => Ok (enriched_distinct s r nl)
   end, add_calls (enrichment_calls (nodes nl)) s).
Proof.
  intros Hnl. unfold populate_distinct, bind. rewrite Hnl. simpl property.
  unfold ret at 1.
  rewrite (Promise_all_one_call e populateNFT mergeNFT
             (fun n => call_Nft_findOne (INFT.id n)))
    by (intros; try reflexivity; apply populateNFT_one_call).
  destruct (first_fault e (length (trace s)) (length (nodes nl))); reflexivity.
Qed.

Lemma request_then_populate_distinct e s q msg :
  enriches_in_place e s q msg
    (try_catch (r <- request q ;; populate_distinct r)%service
               (fun _ => throw msg) e s).
Proof.
  unfold enriches_in_place, try_catch, bind, request, external, reading.
  destruct (fault e (length (trace s))) as [m|]; [reflexivity |].
  change (log ?c s) with (add_calls [c] s).
  destruct (distinctSerieNfts (indexer e q)) as [nl|] eqn:Hnl.
  2:{ unfold populate_distinct, bind. rewrite Hnl. reflexivity. }
  rewrite (populate_distinct_one_call _ _ _ nl Hnl), add_calls_add_calls.
  replace (length (trace (add_calls [call_request q] s))) with (S (length (trace s)))
    by (simpl; rewrite length_app; simpl; lia).
  destruct (first_fault e (S (length (trace s))) (length (nodes nl)));
    (split; [reflexivity |]); [reflexivity |].
  exists (with_nodes (map (mergeNFT s) (nodes nl)) nl).
  split; [reflexivity | split; [reflexivity |]]. apply merged_nodes.
Qed.

(** X2.  [getAllNFTs], [getNFTsFromOwner], [getNFTsFromCreator] and
    [getNFTsNotInIds] pass [limit] and [page] to the query builder in that
    order, make the request, and throw their own message without any other
    call if it fails or if the answer has no [distinctSerieNfts].  Otherwise
    they look every node up, even after a lookup has rejected, throw if one
    did, and else return the answer enriched in place: same nodes in the
    same order, each changed in its categories only, [totalCount] and the
    other field untouched. *)
Theorem list_methods_enrich_in_place e s page limit listed :
  enriches_in_place e s (QueriesBuilder.allNFTs limit page listed)
    "Couldn't get NFTs" (getAllNFTs page limit listed e s) /\
  (forall ownerId,
     enriches_in_place e s (QueriesBuilder.NFTsFromOwnerId ownerId limit page listed)
       "Couldn't get user's owned NFTs" (getNFTsFromOwner ownerId page limit listed e s)) /\
  (forall creatorId,
     enriches_in_place e s (QueriesBuilder.NFTsFromCreatorId creatorId limit page listed)
       "Couldn't get creator's NFTs" (getNFTsFromCreator creatorId page limit listed e s)) /\
  (forall ids,
     enriches_in_place e s (QueriesBuilder.NFTsNotInIds ids limit page listed)
       "Couldn't get NFTs not in ids" (getNFTsNotInIds ids page limit listed e s)).
Proof.
  repeat split; intros; apply request_then_populate_distinct.
Qed.

Lemma getNFTsFromIds_outcome e s ids page limit listed :
  reliable e ->
  let q := QueriesBuilder.NFTsFromIds ids limit page listed in
  getNFTsFromIds ids page limit listed e s =
    match nftEntities (indexer e q) with
    | Some nl => (Ok (enriched_entities s (indexer e q) nl),
                  add_calls (call_request q :: enrichment_calls (nodes nl)) s)
    | None => (Throw "Couldn't get NFTs from ids", add_calls [call_request q] s)
    end.
Proof.
  intros Hrel q. unfold getNFTsFromIds, try_catch, bind. fold q.
  rewrite request_reliable by assumption.
  destruct (nftEntities (indexer e q)) as [nl|] eqn:Hnl.
  - rewrite (populate_entities_reliable _ _ _ nl) by assumption.
    now rewrite add_calls_add_calls.
  - unfold populate_entities, bind. now rewrite Hnl.
Qed.

Lemma getNFTsFromIdsDistinct_outcome e s ids page limit listed :
  reliable e ->
  let q := QueriesBuilder.NFTsFromIds ids limit page listed in
  getNFTsFromIdsDistinct ids page limit listed e s =
    match distinctSerieNfts (indexer e q) with
    | Some nl => (Ok (enriched_distinct s (indexer e q) nl),
                  add_calls (call_request q :: enrichment_calls (nodes nl)) s)
    | None => (Throw "Couldn't get NFTs from ids", add_calls [call_request q] s)
    end.
Proof.
  intros Hrel q. unfold getNFTsFromIdsDistinct, try_catch, bind. fold q.
  rewrite request_reliable by assumption.
  destruct (distinctSerieNfts (indexer e q)) as [nl|] eqn:Hnl.
  - rewrite (populate_distinct_reliable _ _ _ nl) by assumption.
    now rewrite add_calls_add_calls.
  - unfold populate_distinct, bind. now rewrite Hnl.
Qed.

(** X3.  [getNFTsFromIds] and [getNFTsFromIdsDistinct] send the same query;
    the first reads and enriches [nftEntities], the second
    [distinctSerieNfts].  While the collaborators answer, each returns the
    answer with its own field enriched and throws "Couldn't get NFTs from
    ids" when the answer lacks that field, whatever the other field holds. *)
Theorem getNFTsFromIds_field_read e s ids page limit listed :
  reliable e ->
  let q := QueriesBuilder.NFTsFromIds ids limit page listed in
  let r := indexer e q in
  getNFTsFromIds ids page limit listed e s =
    match nftEntities r with
    | Some nl => (Ok (enriched_entities s r nl),
                  add_calls (call_request q :: enrichment_calls (nodes nl)) s)
    | None => (Throw "Couldn't get NFTs from ids", add_calls [call_request q] s)
    end /\
  getNFTsFromIdsDistinct ids page limit listed e s =
    match distinctSerieNfts r with
    | Some nl => (Ok (enriched_distinct s r nl),
                  add_calls (call_request q :: enrichment_calls (nodes nl)) s)
    | None => (Throw "Couldn't get NFTs from ids", add_calls [call_request q] s)
    end.
Proof.
  intros Hrel q r. split.
  - now apply getNFTsFromIds_outcome.
  - now apply getNFTsFromIdsDistinct_outcome.
Qed.

(** An indexer that answers with [nftEntities] only: [getNFTsFromIds]
    returns the record, [getNFTsFromIdsDistinct] throws. *)
Lemma getNFTsFromIds_field_read_witness :
  reliable entities_only_env /\
  fst (getNFTsFromIds ["42"; "2"] None None None entities_only_env sample_store) =
  Ok {| nftEntities :=
          Some {| nodes := [INFT.mk "42" "0" "alice" "bob" 1 [art] None];
                  totalCount := 1 |};
        distinctSerieNfts := None |} /\
  fst (getNFTsFromIdsDistinct ["42"; "2"] None None None entities_only_env sample_store) =
  Throw "Couldn't get NFTs from ids".
Proof.
  assert (Hrel : reliable entities_only_env) by (intros n; reflexivity).
  split; [exact Hrel |].
  destruct (getNFTsFromIds_field_read entities_only_env sample_store ["42"; "2"]
              None None None Hrel) as [H1 H2].
  rewrite H1, H2. split; reflexivity.
Defined.

(** *** What the operations leave untouched *)

Section KeepsMore.
Variable R : Store -> Store -> Prop.
Hypothesis R_refl : forall s, R s s.
Hypothesis R_trans : forall s1 s2 s3, R s1 s2 -> R s2 s3 -> R s1 s3.

Lemma keeps_read {A} (f : Env -> A) : keeps R (read f).
Proof. intros e s. apply R_refl. Qed.

Lemma keeps_both {A B} (ma : M A) (mb : M B) :
  keeps R ma -> keeps R mb -> keeps R (both ma mb).
Proof.
  intros Ha Hb e s. unfold both. specialize (Ha e s).
  destruct (ma e s) as [ra s1]. specialize (Hb e s1).
  destruct (mb e s1) as [rb s2]. simpl in *. eapply R_trans; eassumption.
Qed.

Lemma keeps_Promise_all {A} (ps : list (M A)) :
  Forall (keeps R) ps -> keeps R (Promise_all ps).
Proof.
  induction 1 as [|p ps Hp _ IH].
  - intros e s. apply R_refl.
  - intros e s. simpl. pose proof (keeps_both p (Promise_all ps) Hp IH e s) as H.
    destruct (both p (Promise_all ps) e s) as [[[a l] | msg] s1]; exact H.
Qed.

Lemma keeps_Promise_all_map {X A} (f : X -> M A) (l : list X) :
  (forall x, keeps R (f x)) -> keeps R (Promise_all (map f l)).
Proof.
  intros H. apply keeps_Promise_all. apply Forall_forall.
  intros p Hp. apply in_map_iff in Hp as (x & <- & _). apply H.
Qed.

End KeepsMore.

Lemma unchanged_refl n v s : unchanged n v s s.
Proof. repeat split. Qed.

Lemma unchanged_trans n v s1 s2 s3 :
  unchanged n v s1 s2 -> unchanged n v s2 s3 -> unchanged n v s1 s3.
Proof.
  intros (A1 & B1 & C1 & D1 & E1) (A2 & B2 & C2 & D2 & E2).
  repeat split; try congruence.
  - intros H. rewrite (D2 H). now apply D1.
  - intros H. rewrite (E2 H). now apply E1.
Qed.

Lemma unchanged_log n v c s : unchanged n v s (log c s).
Proof. repeat split. Qed.

(** Proves that a call built from the combinators keeps [unchanged n v]. *)
Ltac keeps_unchanged :=
  repeat first
    [ first [ apply keeps_try_catch | apply keeps_bind | apply keeps_both
            | apply keeps_Promise_all_map | apply keeps_ret | apply keeps_throw
            | apply keeps_read | apply keeps_property ];
      try solve [apply unchanged_refl | apply unchanged_trans]; intros
    | apply keeps_external_reading; intros; apply unchanged_log
    | match goal with
      | |- keeps _ (match ?x with _ => _ end) => destruct x
      | |- keeps _ (if ?x then _ else _) => destruct x
      | |- keeps _ (let '(_, _) := ?x in _) => destruct x
      end ].

Lemma NftView_save_unchanged n doc : keeps (unchanged n true) (NftView_save doc).
Proof.
  intros e s. unfold NftView_save, external.
  destruct (fault e (length (trace s))); repeat split; discriminate.
Qed.

Lemma Nft_save_unchanged v doc : keeps (unchanged true v) (Nft_save doc).
Proof.
  intros e s. unfold Nft_save, external.
  destruct (fault e (length (trace s))); repeat split; discriminate.
Qed.

(** X4.  Whatever the collaborators do, no operation changes the users, the
    follow edges or the categories; only [createNFT] can change the local
    NFT records, and only [getNFT] called with [incViews] set can change the
    view events. *)
Theorem operations_are_read_only o e s :
  unchanged (writes_nfts o) (writes_views o) s (final_store o e s).
Proof.
  destruct o; cbn [final_store writes_nfts writes_views];
    try match goal with |- context [getNFT _ ?inc _ _ _ _] => destruct inc end;
    match goal with
    | |- unchanged ?n ?v _ (snd (?m _ _)) =>
        enough (H : keeps (unchanged n v) m) by apply H
    end;
    unfold getAllNFTs, getNFT, getNFTsFromOwner, getNFTsFromCreator, getStatNFTsUser,
      getNFTsFromIds, getNFTsFromIdsDistinct, getNFTsNotInIds, getNFTsFromCategories,
      createNFT, findMongoNftFromId, getNFTsForSerie, populate_distinct,
      populate_entities, populateNFT, category_id_of_code, getCategoryByCode,
      Nft_findOne_populate, Nft_find, User_findOne, Follow_find, NftView_find,
      Date_now, request;
    keeps_unchanged;
    first [apply NftView_save_unchanged | apply Nft_save_unchanged].
Qed.

(** *** Writes *)

(** What [createNFT] does, whatever the collaborators do. *)
Lemma createNFT_outcome e s nftDTO :
  let codes := INftDto.categories nftDTO in
  let lookups := map call_Category_findOne codes in
  let doc := IMongoNft.mk (INftDto.chainId nftDTO)
               (Some (map (fun x => option_map Category._id (category_of_code s x)) codes)) in
  createNFT nftDTO e s =
  match first_fault e (length (trace s)) (length codes) with
  | Some _ => (Throw "NFT can't be created", add_calls lookups s)
  | None =>
      match fault e (length (trace s) + length codes) with
      | Some _ => (Throw "NFT can't be created",
                   add_calls (lookups ++ [call_Nft_save doc]) s)
      | None => (Ok doc, add_nft doc (add_calls (lookups ++ [call_Nft_save doc]) s))
      end
  end.
Proof.
  cbv zeta. unfold createNFT, try_catch, bind.
  rewrite (Promise_all_one_call e getCategoryByCode category_of_code call_Category_findOne)
    by (intros; try reflexivity; apply getCategoryByCode_one_call).
  destruct (first_fault e (length (trace s)) (length (INftDto.categories nftDTO)));
    [reflexivity |].
  unfold Nft_save, external. rewrite map_map.
  replace (length (trace (add_calls (map call_Category_findOne (INftDto.categories nftDTO)) s)))
    with (length (trace s) + length (INftDto.categories nftDTO))%nat
    by (simpl; now rewrite length_app, length_map).
  destruct (fault e _); change (log ?c ?x) with (add_calls [c] x);
    now rewrite add_calls_add_calls.
Qed.

(** X5.  Whatever the collaborators do, [createNFT] looks every code up
    first and saves last, at most once, and not at all when a lookup has
    rejected: its calls are the lookups of the codes, in order, followed by
    nothing or by the one save.  When it returns, the record returned is the
    one appended to the local records; when it throws, the local records are
    as they were. *)
Theorem createNFT_saves_last e s nftDTO :
  let codes := INftDto.categories nftDTO in
  let lookups := map call_Category_findOne codes in
  let doc := IMongoNft.mk (INftDto.chainId nftDTO)
               (Some (map (fun x => option_map Category._id (category_of_code s x)) codes)) in
  let s' := snd (createNFT nftDTO e s) in
  (trace s' = trace s ++ lookups \/
   trace s' = trace s ++ lookups ++ [call_Nft_save doc]) /\
  (first_fault e (length (trace s)) (length codes) <> None ->
   trace s' = trace s ++ lookups) /\
  match fst (createNFT nftDTO e s) with
  | Ok d => d = doc /\ nfts s' = nfts s ++ [doc] /\
            trace s' = trace s ++ lookups ++ [call_Nft_save doc]
  | Throw msg => nfts s' = nfts s
  end.
Proof.
  cbv zeta. rewrite createNFT_outcome. cbv zeta.
  destruct (first_fault e (length (trace s)) (length (INftDto.categories nftDTO))).
  - split; [now left |]. split; reflexivity.
  - destruct (fault e _); (split; [now right |]); (split; [congruence |]).
    + reflexivity.
    + repeat split.
Qed.

(** The store rejects the lookup of the first code: nothing is saved. *)
Lemma createNFT_saves_last_witness :
  let e := failing_at 0 "MongoNetworkError" 0 in
  first_fault e 0 2 <> None /\
  trace (snd (createNFT (INftDto.mk "7" ["art"; "bogus"]) e sample_store)) =
  [call_Category_findOne "art"; call_Category_findOne "bogus"].
Proof.
  intros e.
  assert (H : first_fault e (length (trace sample_store))
                (length (INftDto.categories (INftDto.mk "7" ["art"; "bogus"]))) <> None)
    by (simpl; discriminate).
  split; [exact H |].
  destruct (createNFT_saves_last e sample_store (INftDto.mk "7" ["art"; "bogus"]))
    as (_ & Hskip & _).
  exact (Hskip H).
Defined.

(** X6.  Whatever the collaborators do, a call to [getNFT] leaves the stored
    view events as they are or appends exactly one; it appends one only when
    it returns, only for a viewer address that is present, as its last
    external call, and the event appended carries the serie id of the
    returned record, the requested id, the viewer's wallet and address, and
    the time of the call. *)
Theorem getNFT_appends_at_most_one_view e s id incViews w ip :
  let r := fst (getNFT id incViews w ip e s) in
  let s' := snd (getNFT id incViews w ip e s) in
  nftViews s' = nftViews s \/
  exists NFT v,
    incViews = true /\ r = Ok NFT /\ present ip /\
    v = NftView.mk (INFT.serieId NFT) id w ip (now e) /\
    nftViews s' = nftViews s ++ [v] /\
    exists t, trace s' = t ++ [call_NftView_save v].
Proof.
  cbv zeta.
  unfold getNFT, try_catch, bind, request, populateNFT, bind, Nft_findOne_populate,
    Date_now, read, NftView_find, NftView_save, external, reading, property, ret, throw.
  cbv beta iota zeta.
  destruct (fault e (length (trace s))); [now left |].
  destruct (nftEntities (indexer e (QueriesBuilder.NFTfromId id))) as [nl|];
    [| now left].
  destruct (nodes nl) as [|NFT0 rest]; [now left |].
  cbv beta iota zeta.
  destruct (fault e (length (trace (log _ s)))); [now left |].
  match goal with
  | |- context [match option_map ?f ?o with _ => _ end] =>
      destruct (option_map f o) as [d|]
  end; cbv beta iota zeta;
    (destruct incViews; [| now left]);
    (destruct (fault e (length (trace (log _ (log _ s))))); [now left |]);
    cbv beta iota zeta;
    (match goal with |- context [if ?c then _ else _] => destruct c eqn:Hc end;
     [| now left]);
    (destruct (fault e _); [now left |]);
    apply andb_true_iff in Hc as [Hp _]; apply truthy_present in Hp;
    right; eexists; eexists;
    (split; [reflexivity |]); (split; [reflexivity |]); (split; [exact Hp |]);
    (split; [reflexivity |]); (split; [reflexivity |]);
    eexists; reflexivity.
Qed.

(** X7.  When the indexer's answer has no [nftEntities], or no node in it,
    [getNFT] throws "Couldn't get NFT" after the request alone: no local
    record is looked up, no view event is read or written, whatever
    [incViews] is. *)
Theorem getNFT_absent_record e s id incViews w ip :
  let q := QueriesBuilder.NFTfromId id in
  (nftEntities (indexer e q) = None \/
   exists nl, nftEntities (indexer e q) = Some nl /\ nodes nl = []) ->
  getNFT id incViews w ip e s = (Throw "Couldn't get NFT", add_calls [call_request q] s).
Proof.
  cbv zeta. intros H.
  unfold getNFT, try_catch, bind, request, external, reading.
  destruct (fault e (length (trace s))); [reflexivity |].
  destruct H as [H | (nl & H & Hn)]; rewrite H; simpl property.
  - reflexivity.
  - unfold ret at 1. rewrite Hn. reflexivity.
Qed.

(** No NFT of the sample chain has the id "1000". *)
Lemma getNFT_absent_record_witness :
  fst (getNFT "1000" true None (Some "1.2.3.4") (sample_env 0) sample_store) =
  Throw "Couldn't get NFT" /\
  trace (snd (getNFT "1000" true None (Some "1.2.3.4") (sample_env 0) sample_store)) =
  [call_request (QueriesBuilder.NFTfromId "1000")].
Proof.
  rewrite (getNFT_absent_record (sample_env 0) sample_store "1000" true None
             (Some "1.2.3.4")).
  - split; reflexivity.
  - right. eexists. split; reflexivity.
Defined.

(** *** [getStatNFTsUser] *)

Lemma request_one_call e s q :
  request q e s =
  (match fault e (length (trace s)) with
   | Some msg => Throw msg
   | None => Ok (indexer e q)
   end, add_calls [call_request q] s).
Proof. unfold request, external, reading. now destruct (fault e _). Qed.

Lemma Follow_find_one_call e s q :
  Follow_find q e s =
  (match fault e (length (trace s)) with
   | Some msg => Throw msg
   | None => Ok (filter (follow_matches q) (follows s))
   end, add_calls [call_Follow_find q] s).
Proof. unfold Follow_find, external, reading. now destruct (fault e _). Qed.

(** X8.  [getStatNFTsUser] looks the user up first.  If the lookup fails or
    finds no user, no other call is made: the indexer is never asked.  If it
    finds the user, the four count queries and the two follow queries are
    all made, in that order, whether or not some of them fail; and the call
    returns only if none of the seven calls failed. *)
Theorem getStatNFTsUser_calls e s walletId :
  let run := getStatNFTsUser walletId e s in
  match fault e (length (trace s)), user_of_wallet s walletId with
  | None, Some user =>
      trace (snd run) = trace s ++ call_User_findOne walletId :: stat_calls walletId user /\
      (first_fault e (S (length (trace s))) 6 <> None ->
       fst run = Throw "Couldn't get users stat")
  | _, _ =>
      run = (Throw "Couldn't get users stat", add_calls [call_User_findOne walletId] s)
  end.
Proof.
  cbv zeta. unfold getStatNFTsUser, try_catch, bind, User_findOne, external, reading.
  destruct (fault e (length (trace s))) as [m|]; [reflexivity |].
  change (find _ (users (log _ s))) with (user_of_wallet s walletId).
  destruct (user_of_wallet s walletId) as [user|]; [| reflexivity].
  change (log ?c ?x) with (add_calls [c] x).
  unfold both.
  repeat (first [rewrite request_one_call | rewrite Follow_find_one_call];
          cbv beta iota zeta).
  rewrite !add_calls_add_calls.
  assert (Hlen : forall cs, length (trace (add_calls cs s)) = (length (trace s) + length cs)%nat)
    by (intros cs; simpl; apply length_app).
  rewrite !Hlen. simpl length.
  replace (length (trace s) + 1)%nat with (S (length (trace s))) by lia.
  replace (length (trace s) + 2)%nat with (S (S (length (trace s)))) by lia.
  replace (length (trace s) + 3)%nat with (S (S (S (length (trace s))))) by lia.
  replace (length (trace s) + 4)%nat with (S (S (S (S (length (trace s)))))) by lia.
  replace (length (trace s) + 5)%nat with (S (S (S (S (S (length (trace s))))))) by lia.
  replace (length (trace s) + 6)%nat with (S (S (S (S (S (S (length (trace s)))))))) by lia.
  simpl first_fault.
  destruct (fault e (S (length (trace s))));
  destruct (fault e (S (S (length (trace s)))));
  destruct (fault e (S (S (S (length (trace s))))));
  destruct (fault e (S (S (S (S (length (trace s)))))));
  destruct (fault e (S (S (S (S (S (length (trace s))))))));
  destruct (fault e (S (S (S (S (S (S (length (trace s)))))))));
  cbv beta iota zeta;
  repeat match goal with
         | |- context [property ?o] => destruct o; simpl property; unfold ret, throw
         end;
  (split; [reflexivity | intros H; try reflexivity; now destruct H]).
Qed.

(** Bob is known; the indexer rejects the third count query: the follow
    queries are made all the same, and the call throws. *)
Lemma getStatNFTsUser_calls_witness :
  let e := failing_at 3 "ECONNRESET" 0 in
  first_fault e 1 6 <> None /\
  fst (getStatNFTsUser "bob" e sample_store) = Throw "Couldn't get users stat".
Proof.
  intros e.
  assert (H : first_fault e (S (length (trace sample_store))) 6 <> None)
    by (simpl; discriminate).
  split; [exact H |].
  pose proof (getStatNFTsUser_calls e sample_store "bob") as Hc.
  cbv zeta in Hc. simpl fault in Hc.
  change (user_of_wallet sample_store "bob") with (Some (User.mk "u-bob" "bob")) in Hc.
  exact (proj2 Hc H).
Defined.

(** *** Successive calls *)

Lemma recorded_view_in_scope NFT id w ip t :
  view_matches (scope_query NFT id) (NftView.mk (INFT.serieId NFT) id w ip t) = true.
Proof.
  unfold scope_query. destruct (INFT.serieId NFT =? "0"); simpl; apply String.eqb_refl.
Qed.

(** X9.  A view recorded for one viewer address holds back the next views of
    that address on the same scope -- the same NFT, or any NFT of the same
    serie when the serie id is not "0".  After a call to [getNFT] that
    recorded a view at time [t1], a call from the same address at time [t2]
    on a record of the same scope is not recorded while [t2 - t1] does not
    exceed the cooldown, and returns the count the first call returned; once
    [t2 - t1] exceeds it (the cooldown and the clock having not gone back),
    the view is recorded and the count is one more. *)
Theorem view_cooldown_between_calls e1 e2 s id1 id2 w1 w2 ip nl1 nl2 NFT1 NFT2 rest1 rest2 :
  reliable e1 -> reliable e2 ->
  nftEntities (indexer e1 (QueriesBuilder.NFTfromId id1)) = Some nl1 ->
  nodes nl1 = NFT1 :: rest1 ->
  nftEntities (indexer e2 (QueriesBuilder.NFTfromId id2)) = Some nl2 ->
  nodes nl2 = NFT2 :: rest2 ->
  scope_query NFT2 id2 = scope_query NFT1 id1 ->
  let first := getNFT id1 true w1 ip e1 s in
  let second := getNFT id2 true w2 ip e2 (snd first) in
  let views := filter (view_matches (scope_query NFT1 id1)) (nftViews s) in
  records_a_view s (snd first) ->
  fst first = Ok (INFT.with_viewsCount (length views + 1) (mergeNFT s NFT1)) /\
  ((now e2 - now e1 <= TIME_BETWEEN_SAME_USER_VIEWS e2)%Z ->
   nftViews (snd second) = nftViews (snd first) /\
   fst second = Ok (INFT.with_viewsCount (length views + 1) (mergeNFT s NFT2))) /\
  (TIME_BETWEEN_SAME_USER_VIEWS e2 = TIME_BETWEEN_SAME_USER_VIEWS e1 ->
   (now e1 <= now e2)%Z ->
   (TIME_BETWEEN_SAME_USER_VIEWS e2 < now e2 - now e1)%Z ->
   records_a_view (snd first) (snd second) /\
   fst second = Ok (INFT.with_viewsCount (length views + 2) (mergeNFT s NFT2))).
Proof.
  intros Hrel1 Hrel2 Hidx1 Hn1 Hidx2 Hn2 Hscope first second views Hrec.
  subst second first.
  revert Hrec.
  rewrite (getNFT_reliable e1 s id1 true w1 ip nl1 NFT1 rest1 Hrel1 Hidx1 Hn1).
  cbv zeta. fold views.
  destruct (cooldown_test e1 ip views) eqn:Hc1; simpl fst; simpl snd;
    [| intros Hrec; exfalso; revert Hrec; apply same_views_not_recorded; reflexivity].
  intros _.
  apply cooldown_test_spec in Hc1 as [Hp Hnone1].
  split; [reflexivity |].
  set (nv := NftView.mk (INFT.serieId NFT1) id1 w1 ip (now e1)).
  match goal with |- context [getNFT id2 true w2 ip e2 ?st] => set (s1 := st) end.
  rewrite (getNFT_reliable e2 s1 id2 true w2 ip nl2 NFT2 rest2 Hrel2 Hidx2 Hn2).
  cbv zeta. rewrite Hscope.
  assert (Hviews : filter (view_matches (scope_query NFT1 id1)) (nftViews s1)
                   = views ++ [nv]).
  { subst s1. simpl nftViews. rewrite filter_app. simpl.
    unfold nv. now rewrite recorded_view_in_scope. }
  rewrite Hviews.
  assert (Hlen : length (views ++ [nv]) = (length views + 1)%nat)
    by (rewrite length_app; reflexivity).
  pose proof (cooldown_test_spec e2 ip (views ++ [nv])) as Hspec.
  split.
  - intros Hwithin.
    destruct (cooldown_test e2 ip (views ++ [nv])).
    + exfalso. destruct (proj1 Hspec eq_refl) as [_ Hnone2].
      assert (Hin : In nv (views ++ [nv])) by (apply in_or_app; right; now left).
      specialize (Hnone2 nv Hin eq_refl).
      unfold nv in Hnone2. simpl in Hnone2. lia.
    + simpl fst; simpl snd. split; [reflexivity |]. now rewrite Hlen.
  - intros HT Hclock Hafter.
    assert (Hc2 : cooldown_test e2 ip (views ++ [nv]) = true).
    { apply Hspec. split; [exact Hp |]. intros v Hv Hip.
      apply in_app_or in Hv as [Hv | [<- | []]].
      - specialize (Hnone1 v Hv Hip). lia.
      - simpl. exact Hafter. }
    rewrite Hc2. simpl fst; simpl snd. split.
    + eexists. reflexivity.
    + rewrite Hlen. now replace (length views + 1 + 1)%nat with (length views + 2)%nat by lia.
Qed.

(** NFTs "7" and "8" are of the serie "s1": a view of "7" at time 1000 holds
    back a view of "8" by the same address at time 2000. *)
Lemma view_cooldown_between_calls_witness :
  let ip := Some "1.2.3.4" in
  let first := getNFT "7" true None ip (sample_env 1000) sample_store in
  let second := getNFT "8" true None ip (sample_env 2000) (snd first) in
  records_a_view sample_store (snd first) /\
  nftViews (snd second) = nftViews (snd first) /\
  fst second = Ok (INFT.mk "8" "s1" "carol" "alice" 1 [] (Some 1%nat)).
Proof.
  intros ip first second.
  assert (Hrec : records_a_view sample_store (snd first))
    by (eexists; vm_compute; reflexivity).
  split; [exact Hrec |].
  destruct (view_cooldown_between_calls (sample_env 1000) (sample_env 2000) sample_store
              "7" "8" None None ip
              {| nodes := [raw "7" "s1" "alice" "alice" 0]; totalCount := 1 |}
              {| nodes := [raw "8" "s1" "carol" "alice" 1]; totalCount := 1 |}
              (raw "7" "s1" "alice" "alice" 0) (raw "8" "s1" "carol" "alice" 1) [] []
              (sample_env_reliable 1000) (sample_env_reliable 2000)
              eq_refl eq_refl eq_refl eq_refl eq_refl Hrec) as (_ & Hwithin & _).
  apply Hwithin. simpl. lia.
Defined.

(** *** [createNFT], then the lookups *)

Lemma find_app_some {A} (f : A -> bool) l l' x :
  find f l = Some x -> find f (l ++ l') = Some x.
Proof.
  induction l as [|a l IH]; simpl; [discriminate |].
  destruct (f a); [trivial | exact IH].
Qed.

Lemma find_app_none {A} (f : A -> bool) l l' :
  find f l = None -> find f (l ++ l') = find f l'.
Proof.
  induction l as [|a l IH]; simpl; [reflexivity |].
  destruct (f a); [discriminate | exact IH].
Qed.

(** With distinct category ids, a reference to a stored category resolves
    to that category. *)
Lemma category_of_own_ref cats c :
  NoDup (map Category._id cats) -> In c cats ->
  category_of_ref cats (Some (Category._id c)) = Some c.
Proof.
  simpl. induction cats as [|a cats IH]; intros Hnd Hin; [destruct Hin |].
  simpl in Hnd. inversion Hnd as [|x l Hnotin Hnd']; subst.
  simpl. destruct (String.eqb_spec (Category._id a) (Category._id c)) as [E | N].
  - destruct Hin as [-> | Hin]; [reflexivity |].
    destruct Hnotin. rewrite E. now apply in_map.
  - destruct Hin as [-> | Hin]; [now destruct N | now apply IH].
Qed.

Lemma resolve_refs_of_codes s codes :
  NoDup (map Category._id (categoryDocs s)) ->
  resolve_refs (categoryDocs s)
    (map (fun x => option_map Category._id (category_of_code s x)) codes)
  = categories_of_codes s codes.
Proof.
  intros Hnd. induction codes as [|x codes IH]; simpl; [reflexivity |].
  destruct (category_of_code s x) as [c|] eqn:Hc; simpl option_map.
  - rewrite (category_of_own_ref _ c Hnd), IH; [reflexivity |].
    unfold category_of_code in Hc. now apply find_some in Hc as [Hc _].
  - simpl. exact IH.
Qed.

Lemma no_code_resolves s codes :
  forallb is_null (map (fun x => option_map Category._id (category_of_code s x)) codes)
  = true <->
  forall x, In x codes -> category_of_code s x = None.
Proof.
  rewrite forallb_forall. split.
  - intros H x Hx.
    specialize (H _ (in_map (fun x => option_map Category._id (category_of_code s x))
                            _ _ Hx)).
    cbv beta in H. destruct (category_of_code s x); [discriminate | reflexivity].
  - intros H r Hr. apply in_map_iff in Hr as (x & <- & Hx). now rewrite (H x Hx).
Qed.

(** The store after [createNFT], when every call succeeds. *)
Lemma createNFT_reliable_store e s nftDTO :
  reliable e ->
  let doc := IMongoNft.mk (INftDto.chainId nftDTO)
               (Some (map (fun x => option_map Category._id (category_of_code s x))
                          (INftDto.categories nftDTO))) in
  nfts (snd (createNFT nftDTO e s)) = nfts s ++ [doc] /\
  categoryDocs (snd (createNFT nftDTO e s)) = categoryDocs s.
Proof.
  intros Hrel doc. rewrite createNFT_outcome. cbv zeta.
  rewrite first_fault_reliable, Hrel by assumption. split; reflexivity.
Qed.

(** X10.  The records of [createNFT] are found by [findMongoNftFromId].
    While the store answers and category ids are distinct, after [createNFT]
    for a chain id that had no local record, [findMongoNftFromId] of that id
    returns a record with that chain id; its categories are those of the
    codes that resolve, in the order of the codes, the other codes being
    dropped -- unless no code resolves at all, in which case the list comes
    back as stored, one [null] entry per code. *)
Theorem createNFT_then_find e s nftDTO :
  reliable e ->
  NoDup (map Category._id (categoryDocs s)) ->
  let chainId := INftDto.chainId nftDTO in
  let codes := INftDto.categories nftDTO in
  let s' := snd (createNFT nftDTO e s) in
  local_record s chainId = None ->
  exists r,
    fst (findMongoNftFromId chainId e s') = Ok (Some r) /\
    PopulatedNft.chainId r = chainId /\
    ((forall x, In x codes -> category_of_code s x = None) ->
     PopulatedNft.categories r = map (fun _ => None) codes) /\
    ((exists x, In x codes /\ category_of_code s x <> None) ->
     PopulatedNft.categories r = map Some (categories_of_codes s codes)).
Proof.
  intros Hrel Hnd chainId codes s' Hnew.
  destruct (createNFT_reliable_store e s nftDTO Hrel) as [Hn Hc]. fold s' in Hn, Hc.
  unfold findMongoNftFromId, try_catch, bind, Nft_findOne_populate.
  rewrite external_reliable by assumption. unfold reading.
  cbn [nfts categoryDocs add_calls]. rewrite Hn, Hc.
  unfold local_record in Hnew. rewrite (find_app_none _ _ _ Hnew).
  unfold chainId. cbn [find IMongoNft.chainId]. rewrite String.eqb_refl.
  simpl option_map. cbv beta iota. unfold ret at 1. cbn [fst].
  eexists. split; [reflexivity |]. split; [reflexivity |].
  unfold populate_categories. simpl PopulatedNft.categories. fold codes.
  pose proof (no_code_resolves s codes) as Hall.
  destruct (forallb is_null _); split.
  - intros _. now rewrite map_map.
  - intros (x & Hx & Hres). destruct Hres. now apply (proj1 Hall eq_refl).
  - intros Hnone. apply Hall in Hnone. discriminate.
  - intros _. now rewrite resolve_refs_of_codes.
Qed.

(** NFT "7" has no record in the sample store: stored with a code that
    resolves among others that do not, it comes back with the categories
    that resolve; stored with unknown codes only, with as many [null]
    entries. *)
Lemma createNFT_then_find_witness :
  let e := sample_env 0 in
  let found codes :=
    fst (findMongoNftFromId "7" e (snd (createNFT (INftDto.mk "7" codes) e sample_store))) in
  reliable e /\ NoDup (map Category._id (categoryDocs sample_store)) /\
  found ["music"; "bogus"; "art"] = Ok (Some (PopulatedNft.mk "7" [Some music; Some art])) /\
  found ["bogus"; "fake"] = Ok (Some (PopulatedNft.mk "7" [None; None])).
Proof.
  intros e found.
  assert (Hnd : NoDup (map Category._id (categoryDocs sample_store))).
  { simpl. repeat constructor; simpl; intuition discriminate. }
  split; [apply sample_env_reliable |]. split; [exact Hnd |]. split.
  - destruct (createNFT_then_find e sample_store (INftDto.mk "7" ["music"; "bogus"; "art"])
                (sample_env_reliable 0) Hnd eq_refl) as (r & Hr & Hid & _ & Hsome).
    unfold found. cbn [INftDto.chainId] in Hr. rewrite Hr.
    destruct r as [cid cats]. simpl in Hid, Hsome.
    rewrite Hid, Hsome; [reflexivity |].
    exists "music". split; [now left | discriminate].
  - destruct (createNFT_then_find e sample_store (INftDto.mk "7" ["bogus"; "fake"])
                (sample_env_reliable 0) Hnd eq_refl) as (r & Hr & Hid & Hnone & _).
    unfold found. cbn [INftDto.chainId] in Hr. rewrite Hr.
    destruct r as [cid cats]. simpl in Hid, Hnone.
    rewrite Hid, Hnone; [reflexivity |].
    intros x [<- | [<- | []]]; reflexivity.
Defined.

(** X15.  [createNFT] never changes what [findMongoNftFromId] returns for a
    chain id that has a local record already: whatever the collaborators do
    during [createNFT], whether it returns or throws, a later lookup of that
    chain id (its call to the store succeeding) returns what a lookup before
    [createNFT] returned -- the older record, not the new one. *)
Theorem createNFT_keeps_older_record e e1 e2 s nftDTO d :
  let chainId := INftDto.chainId nftDTO in
  let s' := snd (createNFT nftDTO e1 s) in
  local_record s chainId = Some d ->
  ~ next_call_fails e s ->
  ~ next_call_fails e2 s' ->
  fst (findMongoNftFromId chainId e2 s') = fst (findMongoNftFromId chainId e s) /\
  exists r, fst (findMongoNftFromId chainId e s) = Ok (Some r).
Proof.
  intros chainId s' Hd Hok Hok'.
  assert (Hfind : local_record s' chainId = Some d /\ categoryDocs s' = categoryDocs s).
  { subst s'. rewrite createNFT_outcome. cbv zeta.
    destruct (first_fault e1 _ _); [split; [exact Hd | reflexivity] |].
    destruct (fault e1 _); (split; [| reflexivity]); [exact Hd |].
    unfold local_record. cbn [snd nfts add_nft add_calls].
    now apply find_app_some. }
  destruct Hfind as [Hd' Hc].
  unfold next_call_fails in Hok, Hok'.
  unfold findMongoNftFromId, try_catch, bind, Nft_findOne_populate, external, reading.
  destruct (fault e (length (trace s))); [now destruct Hok |].
  destruct (fault e2 (length (trace s'))); [now destruct Hok' |].
  change (find _ (nfts (log _ s))) with (local_record s chainId).
  change (find _ (nfts (log _ s'))) with (local_record s' chainId).
  change (categoryDocs (log ?c s')) with (categoryDocs s').
  change (categoryDocs (log ?c s)) with (categoryDocs s).
  rewrite Hd, Hd', Hc. simpl. split; [reflexivity | eexists; reflexivity].
Qed.

(** NFT "42" has the category "art"; a [createNFT] for "42" with the code
    "music" does not change what the lookup of "42" returns. *)
Lemma createNFT_keeps_older_record_witness :
  let e := sample_env 0 in
  fst (findMongoNftFromId "42" e
         (snd (createNFT (INftDto.mk "42" ["music"]) e sample_store)))
  = Ok (Some (PopulatedNft.mk "42" [Some art])).
Proof.
  intros e.
  destruct (createNFT_keeps_older_record e e e sample_store (INftDto.mk "42" ["music"])
              (IMongoNft.mk "42" (Some [Some "c-art"])) eq_refl) as [Hsame _].
  - intros H. now apply H.
  - intros H. now apply H.
  - cbn [INftDto.chainId] in Hsame. rewrite Hsame. reflexivity.
Defined.








(** *** The uncategorized NFTs *)




(** *** The record and the count [getNFT] returns *)

(** X14.  When the record is found and the collaborators answer, [getNFT]
    with [incViews] set returns the first node of the indexer's answer,
    whatever nodes follow it, changed in its categories and its [viewsCount]
    only; and the [viewsCount] it returns is the number of view events of
    the record's scope that the store holds after the call. *)
Theorem getNFT_count_is_stored_count e s id w ip nl NFT0 rest :
  reliable e ->
  nftEntities (indexer e (QueriesBuilder.NFTfromId id)) = Some nl ->
  nodes nl = NFT0 :: rest ->
  let s' := snd (getNFT id true w ip e s) in
  exists NFT,
    fst (getNFT id true w ip e s) = Ok NFT /\
    INFT.id NFT = INFT.id NFT0 /\ INFT.serieId NFT = INFT.serieId NFT0 /\
    INFT.owner NFT = INFT.owner NFT0 /\ INFT.creator NFT = INFT.creator NFT0 /\
    INFT.listed NFT = INFT.listed NFT0 /\
    INFT.categories NFT = INFT.categories (mergeNFT s NFT0) /\
    INFT.viewsCount NFT =
    Some (length (filter (view_matches (scope_query NFT0 id)) (nftViews s'))).
Proof.
  intros Hrel Hidx Hnodes s'. subst s'.
  rewrite (getNFT_reliable e s id true w ip nl NFT0 rest Hrel Hidx Hnodes).
  cbv zeta.
  destruct (same_but_categories_merge s NFT0) as (Hid & Hserie & Hown & Hcre & Hlis & _).
  set (q := scope_query NFT0 id).
  set (nv := NftView.mk (INFT.serieId NFT0) id w ip (now e)).
  assert (Hcount : length (filter (view_matches q) (nftViews s ++ [nv]))
                   = (length (filter (view_matches q) (nftViews s)) + 1)%nat).
  { rewrite filter_app, length_app. f_equal. unfold q, nv. simpl filter.
    now rewrite recorded_view_in_scope. }
  destruct (cooldown_test e ip _); simpl fst; simpl snd; eexists;
    (split; [reflexivity |]);
    unfold INFT.with_viewsCount;
    cbn [INFT.id INFT.serieId INFT.owner INFT.creator INFT.listed INFT.categories
         INFT.viewsCount nftViews add_view add_calls];
    (split; [exact Hid |]); (split; [exact Hserie |]); (split; [exact Hown |]);
    (split; [exact Hcre |]); (split; [exact Hlis |]); (split; [reflexivity |]).
  - now rewrite Hcount.
  - reflexivity.
Qed.

(** The second distinct viewer of NFT "42" gets the count 2, the number of
    events stored after the call. *)
Lemma getNFT_count_is_stored_count_witness :
  let e := sample_env 1000000 in
  let run := getNFT "42" true None (Some "1.2.3.4") e seen_by_another in
  reliable e /\
  exists NFT, fst run = Ok NFT /\
    INFT.viewsCount NFT =
    Some (length (filter (view_matches (by_viewedId "42")) (nftViews (snd run)))) /\
    length (nftViews (snd run)) = 2%nat.
Proof.
  intros e run. split; [apply sample_env_reliable |].
  destruct (getNFT_count_is_stored_count e seen_by_another "42" None (Some "1.2.3.4")
              {| nodes := [raw "42" "0" "alice" "bob" 1]; totalCount := 1 |}
              (raw "42" "0" "alice" "bob" 1) []
              (sample_env_reliable 1000000) eq_refl eq_refl)
    as (NFT & Hok & _ & _ & _ & _ & _ & _ & Hcount).
  exists NFT. split; [exact Hok |]. split; [exact Hcount | reflexivity].
Defined.
